(** * hela: command batches, the task-runner facade and the build configuration

  A shallow embedding of the three source files of the repository

  - [src/@tunnckocore/execa/src/index.js]  (module [Execa]),
  - [src/packages/hela-core/src/index.js]  (module [HelaCore]),
  - [src/packages/hela-dev/src/configs/build/index.js]  (module [HelaDev]),

  together with the JavaScript values they manipulate (module [Js]), the
  child processes they spawn (module [Child]) and the two collaborators
  they delegate to: the concurrency-limiting mapper (module [PMap]) and
  the option registration of the command-line parser (module [Sade]).
  Module [Batch] holds the vocabulary of the properties and module
  [Sample] a few concrete processes and programs; the properties follow. *)

From Stdlib Require Import Ascii.
From stdpp Require Import gmap strings list fin_maps.

Set Warnings "-register-all".

(** ** JavaScript values *)

Module Js.

(** Numbers are kept to what the sources compare and count with: the
    integers, the two infinities and NaN. *)
Inductive number := Finite (z : Z) | PosInf | NegInf | NaN.

Inductive value :=
  | VUndef
  | VNull
  | VBool (b : bool)
  | VNum (n : number)
  | VStr (s : string)
  | VArr (l : list value)
  | VObj (m : gmap string value).

Abbreviation object := (gmap string value).

(** [Boolean(v)], the callback of [.filter(Boolean)] and the test of
    [!v], [v ? a : b] and [a && b]. *)
Definition ToBoolean (v : value) : bool :=
  match v with
  | VUndef | VNull => false
  | VBool b => b
  | VNum (Finite z) => negb (z =? 0)%Z
  | VNum NaN => false
  | VNum _ => true
  | VStr s => match s with EmptyString => false | String _ _ => true end
  | VArr _ | VObj _ => true
  end.

(** [[].concat(v)]: an array argument is spread one level, anything else
    becomes the single element of the new array. *)
Definition concat_empty (v : value) : list value :=
  match v with
  | VArr l => l
  | _ => [v]
  end.

(** [Object.assign(target, source)] for a source that may be [undefined]
    (an omitted parameter): own properties of the source win. *)
Definition assign (target : object) (source : option object) : object :=
  match source with
  | Some src => src ∪ target
  | None => target
  end.

(** A property read [v.key]. Reading from [undefined] or [null] throws
    (here [None]); a missing property reads as [undefined]. *)
Definition get (v : value) (key : string) : option value :=
  match v with
  | VUndef | VNull => None
  | VObj m => Some (default VUndef (m !! key))
  | _ => Some VUndef
  end.

(** [v === 'literal']. *)
Definition is_string (lit : string) (v : value) : bool :=
  match v with
  | VStr s => bool_decide (s = lit)
  | _ => false
  end.

(** [array[i] = x] on an array with holes: a write past the end extends
    the array, leaving the slots in between empty. *)
Definition array_set {A} (i : nat) (x : A) (arr : list (option A))
  : list (option A) :=
  if decide (i < length arr) then <[i := Some x]> arr
  else arr ++ replicate (i - length arr) None ++ [Some x].

(** An error object: its class, its message and the properties attached
    to it. *)
Record ErrorObject := {
  error_name : string;
  error_message : string;
  error_props : gmap string value
}.

(** The [TypeError] the engine throws. *)
Definition type_error (msg : string) : ErrorObject :=
  {| error_name := "TypeError"; error_message := msg; error_props := ∅ |}.

(** How a call ends. *)
Inductive Completion :=
  | Returns (v : value)
  | Throws (e : ErrorObject).

End Js.

Export Js.

(** ** Child processes *)

Module Child.

(** The outcome of one command (ExecutionResult). *)
Record ExecutionResult := {
  exitCode : Z;
  stdout : string;
  stderr : string;
  killed : bool;
  signal : option string;
  timedOut : bool
}.

(** What a failing command rejects with: the same fields, the command
    text and a message (ExecutionError). *)
Record ExecutionError := {
  failed : ExecutionResult;
  command : string;
  message : string
}.

(** What a rejected batch carries: the error of a command, or the
    [TypeError] of the mapper for an unusable concurrency. *)
Inductive Failure :=
  | CommandFailed (e : ExecutionError)
  | TypeError (msg : string).

(** A spawned process runs for [duration] ticks and then settles. *)
Record Process := {
  duration : nat;
  outcome : ExecutionResult + ExecutionError
}.

(** The process runner ([execa.command]) as the batch sees it: the
    behaviour of the [k]-th process spawned by the batch, for the command
    and the options it is given. *)
Definition Runner := nat → value → object → Process.

Inductive Event :=
  | Spawn (k : nat) (cmd : value) (opts : object) (time : nat)
  | Exit (k : nat) (time : nat).

Record World := {
  clock : nat;
  spawned : nat;
  log : list Event
}.

Definition idle : World := {| clock := 0; spawned := 0; log := [] |}.

(** The promise [execa.command] returns. *)
Record Promise := {
  pid : nat;
  settles_at : nat;
  settles_with : ExecutionResult + ExecutionError
}.

(** [execa.command(cmd, opts)]: the process starts now. *)
Definition execa_command (run : Runner) (cmd : value) (opts : object)
    (w : World) : Promise * World :=
  let p := run (spawned w) cmd opts in
  ({| pid := spawned w;
      settles_at := clock w + duration p;
      settles_with := outcome p |},
   {| clock := clock w;
      spawned := S (spawned w);
      log := log w ++ [Spawn (spawned w) cmd opts (clock w)] |}).

(** The process behind a promise exits: time has moved to that moment. *)
Definition exited (p : Promise) (w : World) : World :=
  {| clock := settles_at p;
     spawned := spawned w;
     log := log w ++ [Exit (pid p) (settles_at p)] |}.

(** What [exec] resolves with: nothing, or the array of results. *)
Inductive Fulfilment :=
  | Undefined
  | Results (slots : list (option ExecutionResult)).

Inductive Settlement :=
  | Pending
  | Resolved (v : Fulfilment)
  | Rejected (r : Failure).

End Child.

Export Child.

(** ** The concurrency-limiting mapper *)

Module PMap.

(** Modelled from the spec: the mapper with limited concurrency ([p-map],
    imported by [src/@tunnckocore/execa/src/index.js]) is not among the
    sources. The spec (4.1, 5, 6) describes it: a pool of in-flight tasks
    up to the limit; as each finishes, the next pending item is pulled
    from the front of the list; the output keeps the input order whatever
    the completion order; a failure surfaces as soon as any in-flight task
    fails, tasks already started are not terminated and no new one is
    started afterwards; the limit is a positive integer or unbounded.
    The state below is the bookkeeping of that algorithm. *)
Record State := {
  iterator : list value;
  currentIndex : nat;
  ret : list (option ExecutionResult);
  isRejected : bool;
  isIterableDone : bool;
  resolvingCount : nat;
  inflight : list (nat * Promise);
  promise : Settlement;
  world : World
}.

Inductive Limit := AtMost (n : nat) | Unbounded.

(** The limit must be an integer from 1 and up, or [Infinity]. *)
Definition limit_of (concurrency : value) : option Limit :=
  match concurrency with
  | VNum (Finite z) => if (1 <=? z)%Z then Some (AtMost (Z.to_nat z)) else None
  | VNum PosInf => Some Unbounded
  | _ => None
  end.

(** Settling a promise that is already settled has no effect. *)
Definition settle (how : Settlement) (s : State) : State :=
  {| iterator := iterator s;
     currentIndex := currentIndex s;
     ret := ret s;
     isRejected := isRejected s;
     isIterableDone := isIterableDone s;
     resolvingCount := resolvingCount s;
     inflight := inflight s;
     promise := match promise s with Pending => how | settled => settled end;
     world := world s |}.

Definition Mapper := value → World → Promise * World.

(** [next()]: pull the next item and start it, or notice that the input
    is exhausted and resolve once nothing is in flight. *)
Definition next (mapper : Mapper) (s : State) : State :=
  if isRejected s then s
  else
    match iterator s with
    | [] =>
        let s' :=
          {| iterator := [];
             currentIndex := S (currentIndex s);
             ret := ret s;
             isRejected := isRejected s;
             isIterableDone := true;
             resolvingCount := resolvingCount s;
             inflight := inflight s;
             promise := promise s;
             world := world s |} in
        if resolvingCount s' =? 0 then settle (Resolved (Results (ret s'))) s'
        else s'
    | item :: rest =>
        let '(p, w) := mapper item (world s) in
        {| iterator := rest;
           currentIndex := S (currentIndex s);
           ret := ret s;
           isRejected := isRejected s;
           isIterableDone := isIterableDone s;
           resolvingCount := S (resolvingCount s);
           inflight := inflight s ++ [(currentIndex s, p)];
           promise := promise s;
           world := w |}
    end.

(** The initial loop [for (i = 0; i < concurrency; i++) { next(); if
    (isIterableDone) break; }], for [n] rounds. *)
Fixpoint launch (mapper : Mapper) (n : nat) (s : State) : State :=
  match n with
  | 0 => s
  | S k =>
      let s' := next mapper s in
      if isIterableDone s' then s' else launch mapper k s'
  end.

(** With no limit the loop ends at the [break], which the call of [next()]
    after the last item triggers. *)
Definition rounds (limit : Limit) (items : list value) : nat :=
  match limit with
  | AtMost n => n
  | Unbounded => S (length items)
  end.

(** The task in flight that settles first; of two that settle at the same
    moment, the one started first. *)
Fixpoint earliest (fs : list (nat * Promise))
    : option ((nat * Promise) * list (nat * Promise)) :=
  match fs with
  | [] => None
  | f :: rest =>
      match earliest rest with
      | Some (g, rest') =>
          if settles_at (snd g) <? settles_at (snd f)
          then Some (g, f :: rest')
          else Some (f, rest)
      | None => Some (f, [])
      end
  end.

(** The continuation of one task: on success the result is stored under
    the task's index, the count drops and [next()] runs; on failure the
    mapper is marked rejected and its promise rejects. *)
Definition completion (mapper : Mapper) (s : State) : option State :=
  match earliest (inflight s) with
  | None => None
  | Some ((i, p), others) =>
      let w := exited p (world s) in
      match settles_with p with
      | inl v =>
          Some (next mapper
            {| iterator := iterator s;
               currentIndex := currentIndex s;
               ret := array_set i v (ret s);
               isRejected := isRejected s;
               isIterableDone := isIterableDone s;
               resolvingCount := pred (resolvingCount s);
               inflight := others;
               promise := promise s;
               world := w |})
      | inr e =>
          Some (settle (Rejected (CommandFailed e))
            {| iterator := iterator s;
               currentIndex := currentIndex s;
               ret := ret s;
               isRejected := true;
               isIterableDone := isIterableDone s;
               resolvingCount := resolvingCount s;
               inflight := others;
               promise := promise s;
               world := w |})
      end
  end.

(** The event loop: continuations run while tasks are in flight. *)
Fixpoint drain (mapper : Mapper) (fuel : nat) (s : State) : State :=
  match fuel with
  | 0 => s
  | S k =>
      match completion mapper s with
      | Some s' => drain mapper k s'
      | None => s
      end
  end.

Definition start (items : list value) (w : World) : State :=
  {| iterator := items;
     currentIndex := 0;
     ret := [];
     isRejected := false;
     isIterableDone := false;
     resolvingCount := 0;
     inflight := [];
     promise := Pending;
     world := w |}.

(** Every item is started at most once and every round of the loop
    retires one task, so as many rounds as there are items drain it. *)
Definition run (items : list value) (mapper : Mapper) (limit : Limit)
    (w : World) : State :=
  drain mapper (length items) (launch mapper (rounds limit items) (start items w)).

(** Modelled from the spec: [pMap(items, mapper, { concurrency })], the
    mapper's entry point, which is not among the sources: the settlement
    of the promise it returns, and the world once every task has settled.
    A concurrency that is neither a positive integer nor unbounded is
    refused. *)
Definition pMap (items : list value) (mapper : Mapper) (concurrency : value)
    (w : World) : Settlement * World :=
  match limit_of concurrency with
  | None =>
      (Rejected (TypeError "Expected `concurrency` to be an integer from 1 and up or `Infinity`"), w)
  | Some limit =>
      let s := run items mapper limit w in (promise s, world s)
  end.

End PMap.

(** ** [@tunnckocore/execa] *)

Module Execa.

(** The destructuring [{ concurrency = Infinity, ...opts }]: the default
    applies when the property is missing or [undefined]. *)
Definition concurrency_of (merged : object) : value :=
  match merged !! "concurrency" with
  | None | Some VUndef => VNum PosInf
  | Some v => v
  end.

(** [Object.assign({ preferLocal: true }, options)]. *)
Definition merged_options (options : option object) : object :=
  assign {[ "preferLocal" := VBool true ]} options.

(** The rest [...opts] of the destructuring: everything but
    [concurrency]. *)
Definition effective_options (options : option object) : object :=
  delete "concurrency" (merged_options options).

(** [exec(cmds, options)]. *)
Definition exec (run : Runner) (cmds : value) (options : option object)
    : Settlement * World :=
  let commands := List.filter ToBoolean (concat_empty cmds) in
  let concurrency := concurrency_of (merged_options options) in
  let opts := effective_options options in
  PMap.pMap commands (fun cmd => execa_command run cmd opts) concurrency idle.

(** [shell(cmds, options)]. *)
Definition shell (run : Runner) (cmds : value) (options : option object)
    : Settlement * World :=
  exec run cmds (Some (assign (assign ∅ options) (Some {[ "shell" := VBool true ]}))).

End Execa.

(** ** The command-line parser *)

Module Sade.

(** A user's task function: what it does with the arguments it is
    applied to. *)
Definition TaskFn := list value → Completion.

(** A handler stored on a task by [action]: the closure over the task's
    name and the user's function. *)
Inductive Handler := Wrapped (name : string) (fn : TaskFn).

(** An entry of the parser's [tree]. *)
Record Task := {
  usage : string;
  options : list (string * string * value);
  defaults : object;
  handler : option Handler
}.

(** The program object: the parser's [name], [curr] and [tree], and the
    [commands] registry the facade adds, whose entries are the very
    objects of [tree] (kept here as their keys). *)
Record Program := {
  name : value;
  curr : string;
  tree : gmap string Task;
  commands : gmap string string
}.

Definition ALL : string := "__all__".
Definition DEF : string := "__default__".

Definition fresh (usage : string) : Task :=
  {| usage := usage; options := []; defaults := ∅; handler := None |}.

(** Modelled from the spec: the parser's constructor is not among the
    sources. A new program has no command being defined and a tree with
    the entry shared by all commands and the implicit default one. *)
Definition Sade (bin : string) : Program :=
  {| name := VStr bin;
     curr := "";
     tree := {[ ALL := fresh ""; DEF := fresh "<command>" ]};
     commands := ∅ |}.

(** Modelled from the spec: the parser's [command(name)] is not among the
    sources. It registers a task under [name] and makes it the command
    being defined; a name already taken is an error. *)
Definition command (cmd : string) (this : Program) : option Program :=
  match tree this !! cmd with
  | Some _ => None
  | None =>
      Some {| name := name this;
              curr := cmd;
              tree := <[cmd := fresh cmd]> (tree this);
              commands := commands this |}
  end.

Fixpoint strip_dashes (s : string) : string :=
  match s with
  | String "-"%char rest => strip_dashes rest
  | _ => s
  end.

(** Modelled from the spec: the parser's [option(flag, description,
    value)] is not among the sources. It registers the flag, with its
    default value, on the command being defined ([curr]); while no command
    is being defined the parser keeps options on the entry shared by all
    commands. *)
Definition option_ (flag description : string) (val : value) (this : Program)
    : Program :=
  let key := if decide (curr this = "") then ALL else curr this in
  {| name := name this;
     curr := curr this;
     tree :=
       alter (fun t =>
                {| usage := usage t;
                   options := options t ++ [(flag, description, val)];
                   defaults := <[strip_dashes flag := val]> (defaults t);
                   handler := handler t |})
             key (tree this);
     commands := commands this |}.

(** What [parse] returns in lazy mode: [{ args, name, handler }], each of
    which may be missing. *)
Record ParseResult := {
  r_args : option (list value);
  r_name : option string;
  r_handler : option Handler
}.

End Sade.

(** ** [@hela/core] *)

Module HelaCore.

Import Sade.

Section Process.

(** [proc.env] and [proc.cwd()]. *)
Variable env : object.
Variable cwd : string.

Definition defaultOptions : object :=
  {[ "stdio" := VStr "inherit"; "env" := VObj env ]}.

(** The loop [for (const cmd of commands) { await execa.command(cmd,
    opts); }] of [exec]: a rejected [await] leaves the function. *)
Fixpoint series (run : Runner) (opts : object) (commands : list value)
    (w : World) : Settlement * World :=
  match commands with
  | [] => (Resolved Undefined, w)
  | cmd :: rest =>
      let '(p, w1) := execa_command run cmd opts w in
      let w2 := exited p w1 in
      match settles_with p with
      | inl _ => series run opts rest w2
      | inr e => (Rejected (CommandFailed e), w2)
      end
  end.

(** [Object.assign({}, defaultOptions, options)]. *)
Definition effective_options (options : option object) : object :=
  assign (assign ∅ (Some defaultOptions)) options.

(** [exec(cmds, options)]. *)
Definition exec (run : Runner) (cmds : value) (options : option object)
    : Settlement * World :=
  let commands := List.filter ToBoolean (concat_empty cmds) in
  let opts := effective_options options in
  series run opts commands idle.

(** [shell(cmds, options)]. *)
Definition shell (run : Runner) (cmds : value) (options : option object)
    : Settlement * World :=
  exec run cmds (Some (assign (assign ∅ options) (Some {[ "shell" := VBool true ]}))).

(** What [hela(options)] keeps for [listen]:
    [Object.assign({}, defaultOptions, options, { lazy: true })]. *)
Definition hela_options (options : option object) : object :=
  assign (assign (assign ∅ (Some defaultOptions)) options)
         (Some {[ "lazy" := VBool true ]}).

(** [hela(options)]: the program [Sade('hela').version('3.0.0')] with an
    empty [commands] registry. *)
Definition hela : Program := Sade "hela".

(** The argument of [action]: a function, or something else. *)
Inductive Callable :=
  | Function (fn : TaskFn)
  | NotCallable (v : value).

(** A call of a user's function, as the program observes it. *)
Record Invocation := {
  task : string;
  received : list value
}.

(** [Object.assign({}, taskObj.default, { _: [name] })], read when the
    handler is called. *)
Definition fakeArgv (task_name : string) (this : Program) : value :=
  VObj (<["_" := VArr [VStr task_name]]>
          (default ∅ (defaults <$> tree this !! task_name))).

(** A call of the handler [action] stores:
    [fn.apply(this, args.concat(fakeArgv))]. *)
Definition call (this : Program) (h : Handler) (args : list value)
    : list Invocation * Completion :=
  match h with
  | Wrapped task_name fn =>
      let given := args ++ [fakeArgv task_name this] in
      ([{| task := task_name; received := given |}], fn given)
  end.

Definition set_handler (task_name : string) (h : Handler) (this : Program)
    : Program :=
  {| name := name this;
     curr := curr this;
     tree :=
       alter (fun t =>
                {| usage := usage t;
                   options := options t;
                   defaults := defaults t;
                   handler := Some h |})
             task_name (tree this);
     commands := commands this |}.

Definition set_command (task_name : string) (this : Program) : Program :=
  {| name := name this;
     curr := curr this;
     tree := tree this;
     commands := <[task_name := task_name]> (commands this) |}.

(** [action(fn)]. The handler it returns is the one stored on the task
    ([Object.assign(taskObj.handler, this)] decorates that function object
    with the program's properties, which does not change what a call of
    it does); [this.name] is removed for the copy and restored. *)
Definition action (fn : Callable) (this : Program)
    : ErrorObject + (Handler * Program) :=
  let task_name := if decide (curr this = "") then DEF else curr this in
  match tree this !! task_name with
  | None => inl (type_error "Cannot read properties of undefined")
  | Some taskObj =>
      let this1 :=
        match fn with
        | Function f => set_handler task_name (Wrapped task_name f) this
        | NotCallable _ => this
        end in
      let this2 :=
        option_ "--cwd" "Current working directory" (VStr cwd) this1 in
      let this3 := set_command task_name this2 in
      match tree this3 !! task_name ≫= handler with
      | Some h => inr (h, this3)
      | None => inl (type_error "Cannot convert undefined or null to object")
      end
  end.

(** [Object.assign(err, { commandArgv: args.pop(), commandArgs: args,
    commandName: name })]: [pop] takes the last element off the array that
    [commandArgs] then refers to. *)
Definition enrich (err : ErrorObject) (args : list value)
    (task_name : option string) : ErrorObject :=
  {| error_name := error_name err;
     error_message := error_message err;
     error_props :=
       <["commandName" := from_option VStr VUndef task_name]>
         (<["commandArgs" := VArr (removelast args)]>
            (<["commandArgv" := List.last args VUndef]> (error_props err))) |}.

Section Listen.

(** [prog.parse(argv, opts)], the parser's. *)
Variable parse : Program → list string → object → option ParseResult.

(** [proc.argv]. *)
Variable argv : list string.

(** [listen()], for the program [hela(options)] has become. *)
Definition listen (options : option object) (this : Program)
    : list Invocation * Completion :=
  match parse this argv (hela_options options) with
  | None => ([], Returns VUndef)
  | Some result =>
      let no_args := match r_args result with Some _ => false | None => true end in
      let no_name := negb (ToBoolean (from_option VStr VUndef (r_name result))) in
      if no_args && no_name then ([], Returns VUndef)
      else
        let '(calls, how) :=
          match r_handler result with
          | Some h => call this h (default [] (r_args result))
          | None => ([], Throws (type_error "Cannot read properties of undefined"))
          end in
        match how with
        | Returns _ => (calls, Returns VUndef)
        | Throws err =>
            match r_args result with
            | Some args => (calls, Throws (enrich err args (r_name result)))
            | None =>
                (calls, Throws (type_error "Cannot read properties of undefined"))
            end
        end
  end.

End Listen.

End Process.

Section Load.

(** [dirs.allPaths.binaries]: the directories of locally installed
    executables that [all-module-paths] finds for the module paths of
    [proc.cwd()]. *)
Variable binaries : list string.

(** [proc.env] when the module is loaded: variable names to strings. *)
Variable environment : gmap string string.

(** [dirs.allPaths.binaries.join(':')]. *)
Definition OWN_PATH : string := String.concat ":" binaries.

(** The statement [proc.env.PATH = `${OWN_PATH}:${proc.env.PATH}`] run
    when the module is loaded; in the template a variable that is not set
    reads [undefined]. *)
Definition loaded : gmap string string :=
  <["PATH" := OWN_PATH +:+ ":" +:+ default "undefined" (environment !! "PATH")]>
    environment.

(** [proc.env] from then on, the object [defaultOptions.env] refers to. *)
Definition proc_env : object := VStr <$> loaded.

End Load.

Section Flags.

(** [dargs(argv, opts)], the converter's. *)
Variable dargs : object → object → list string.

(** [toFlags(argv, options)]. *)
Definition toFlags (argv : object) (options : option object) : string :=
  let opts := assign {[ "allowSingleFlags" := VBool true ]} options in
  String.concat " " (dargs argv opts).

End Flags.

End HelaCore.

(** ** [@hela/dev]: the build configuration *)

Module HelaDev.

Record Haste := {
  outDir : string;
  babel : value
}.

Record Config := {
  displayName : string;
  testEnvironment : string;
  testMatch : list string;
  testPathIgnorePatterns : list string;
  haste : Haste;
  runner : string;
  moduleFileExtensions : list string;
  rootDir : value
}.

(** [Object.assign({ env: { NODE_ENV: 'main' } }, options)]. *)
Definition build_options (options : option object) : object :=
  assign {[ "env" := VObj {[ "NODE_ENV" := VStr "main" ]} ]} options.

(** A field of an object, [undefined] when missing. *)
Definition field (o : object) (key : string) : value :=
  default VUndef (o !! key).

(** [createBuildConfig(options)], for the imported [babelConfig]; [None]
    is the [TypeError] of reading [NODE_ENV] from an [env] that is
    [undefined] or [null]. *)
Definition createBuildConfig (babelConfig : object) (options : option object)
    : option Config :=
  let opts := build_options options in
  let match_ :=
    if ToBoolean (field opts "mono") then "packages/*/src/**/*" else "src/**/*" in
  node_env ← get (field opts "env") "NODE_ENV";
  Some
    {| displayName :=
         if is_string "module" node_env then "build:esm" else "build:cjs";
       testEnvironment := "node";
       testMatch := ["<rootDir>/" +:+ match_];
       testPathIgnorePatterns := [".+/__tests__/.+"; ".+/dist/.+"];
       haste :=
         {| outDir :=
              if is_string "module" node_env then "dist/build/module"
              else "dist/build/main";
            babel :=
              if ToBoolean (field babelConfig "default") then VObj babelConfig
              else field babelConfig "default" |};
       runner := "@tunnckocore/jest-runner-babel";
       moduleFileExtensions := ["ts"; "tsx"; "js"; "jsx"; "mjs"; "json"];
       rootDir := field opts "cwd" |}.

End HelaDev.

(** ** Vocabulary of the properties *)

Module Batch.

Import PMap.

Section Outcomes.

Variable run : Runner.
Variable opts : object.
Variable items : list value.

(** What the [i]-th command of the batch does when it is run. *)
Definition outcome_at (i : nat) : option (ExecutionResult + ExecutionError) :=
  (fun cmd => outcome (run i cmd opts)) <$> items !! i.

(** The exit of a command that fails. *)
Definition failing_exit (ev : Event) : Prop :=
  match ev with
  | Exit k _ => ∃ e, outcome_at k = Some (inr e)
  | Spawn _ _ _ _ => False
  end.

(** Command [j] is the first failing command to exit. *)
Definition first_failing_exit (evs : list Event) (j : nat) : Prop :=
  ∃ before later t,
    evs = before ++ Exit j t :: later
    ∧ Forall (fun ev => ¬ failing_exit ev) before.

(** The facts that hold of the mapper's bookkeeping from the first call
    of [next()] on. *)
Record Inv (s : State) : Prop := {
  inv_iter : iterator s = drop (currentIndex s) items;
  inv_spawned : spawned (world s) = currentIndex s `min` length items;
  inv_flight : ∀ i p, (i, p) ∈ inflight s →
    i < currentIndex s ∧ pid p = i ∧ outcome_at i = Some (settles_with p);
  inv_nodup : NoDup (inflight s).*1;
  inv_done : ∀ i, i < currentIndex s → i < length items →
    i ∈ (inflight s).*1
    ∨ (∃ r, outcome_at i = Some (inl r) ∧ ret s !! i = Some (Some r))
    ∨ (∃ e, outcome_at i = Some (inr e) ∧ isRejected s = true);
  inv_count : isRejected s = false → resolvingCount s = length (inflight s);
  inv_ret : length (ret s) ≤ length items;
  inv_exits : isRejected s = false →
    Forall (fun ev => ¬ failing_exit ev) (log (world s));
  inv_promise :
    match promise s with
    | Pending => isRejected s = false
    | Resolved v =>
        isRejected s = false ∧ v = Results (ret s)
        ∧ inflight s = [] ∧ iterator s = []
    | Rejected f =>
        isRejected s = true
        ∧ ∃ i e, outcome_at i = Some (inr e) ∧ f = CommandFailed e
            ∧ first_failing_exit (log (world s)) i
    end
}.

(** What follows a command already started by the loop with [await]: the
    rest of the loop if it succeeds, the rejection if it fails. *)
Definition after (p : Promise) (rest : list value) (w : World)
    : Settlement * World :=
  match settles_with p with
  | inl _ => HelaCore.series run opts rest (exited p w)
  | inr e => (Rejected (CommandFailed e), exited p w)
  end.

End Outcomes.

Arguments inv_iter {_ _ _ _}.
Arguments inv_spawned {_ _ _ _}.
Arguments inv_flight {_ _ _ _}.
Arguments inv_nodup {_ _ _ _}.
Arguments inv_done {_ _ _ _}.
Arguments inv_count {_ _ _ _}.
Arguments inv_ret {_ _ _ _}.
Arguments inv_exits {_ _ _ _}.
Arguments inv_promise {_ _ _ _}.

(** Once [next()] has run, an empty pool means a settled promise. *)
Definition Live (s : State) : Prop :=
  isRejected s = false → inflight s = [] → promise s ≠ Pending.

(** The state in which the continuation of a successful task calls
    [next()]. *)
Definition retired (i : nat) (p : Promise) (v : ExecutionResult)
    (others : list (nat * Promise)) (s : State) : State :=
  {| iterator := iterator s;
     currentIndex := currentIndex s;
     ret := array_set i v (ret s);
     isRejected := isRejected s;
     isIterableDone := isIterableDone s;
     resolvingCount := pred (resolvingCount s);
     inflight := others;
     promise := promise s;
     world := exited p (world s) |}.

(** The state a failed task leaves. *)
Definition failed_with (p : Promise) (e : ExecutionError)
    (others : list (nat * Promise)) (s : State) : State :=
  settle (Rejected (CommandFailed e))
    {| iterator := iterator s;
       currentIndex := currentIndex s;
       ret := ret s;
       isRejected := true;
       isIterableDone := isIterableDone s;
       resolvingCount := resolvingCount s;
       inflight := others;
       promise := promise s;
       world := exited p (world s) |}.

(** What is left to do: the tasks in flight and the items not yet pulled. *)
Definition backlog (s : State) : nat := length (inflight s) + length (iterator s).

(** An event of a process that was handed the options [o]. *)
Definition carries (o : object) (ev : Event) : Prop :=
  match ev with
  | Spawn _ _ o' _ => o' = o
  | Exit _ _ => True
  end.

(** A log in which the commands run one after the other: the events come
    in pairs, the [k]-th pair is the start and the exit of the [k]-th
    command, and no command starts before the previous one has exited. *)
Fixpoint in_series (k since : nat) (cmds : list value) (evs : list Event)
    {struct evs} : Prop :=
  match evs with
  | [] => True
  | Spawn i cmd _ t :: Exit j t' :: evs' =>
      match cmds with
      | [] => False
      | c :: cmds' =>
          i = k ∧ j = k ∧ cmd = c ∧ since ≤ t ∧ t ≤ t'
          ∧ in_series (S k) t' cmds' evs'
      end
  | _ => False
  end.

(** The commands of a batch: [[].concat(cmds).filter(Boolean)]. *)
Definition commands_of (cmds : value) : list value :=
  List.filter ToBoolean (concat_empty cmds).

(** The concurrency the caller asks for is one the mapper accepts: a
    positive integer, [Infinity], or none at all. *)
Definition usable_concurrency (options : option object) : Prop :=
  is_Some (limit_of (Execa.concurrency_of (Execa.merged_options options))).

(** Every command of the list succeeds when run with the options [opts]. *)
Definition all_succeed (run : Runner) (opts : object) (cmds : list value)
    : Prop :=
  ∀ i cmd, cmds !! i = Some cmd → ∃ r, outcome (run i cmd opts) = inl r.

(** Command [i] fails with [e], and it is the first of the list to do so. *)
Definition first_to_fail (run : Runner) (opts : object) (cmds : list value)
    (i : nat) (e : ExecutionError) : Prop :=
  (∃ cmd, cmds !! i = Some cmd ∧ outcome (run i cmd opts) = inr e)
  ∧ ∀ j cmd, j < i → cmds !! j = Some cmd →
      ∃ r, outcome (run j cmd opts) = inl r.

(** An event of a process run in shell mode. *)
Definition in_shell_mode (ev : Event) : Prop :=
  match ev with
  | Spawn _ _ o _ => o !! "shell" = Some (VBool true)
  | Exit _ _ => True
  end.

(** A log in which every command is started at time [0], before anything
    else happens. *)
Definition all_at_once (opts : object) (cmds : list value) (evs : list Event)
    : Prop :=
  take (length cmds) evs = imap (fun k cmd => Spawn k cmd opts 0) cmds.

End Batch.

(** ** Vocabulary of the logs *)

Module Trace.

(** The commands started, in the order in which they were. *)
Definition started (evs : list Event) : list (nat * value) :=
  omap (fun ev =>
          match ev with
          | Spawn k cmd _ _ => Some (k, cmd)
          | Exit _ _ => None
          end) evs.

(** The commands of a list with their positions. *)
Definition numbered (cmds : list value) : list (nat * value) := imap pair cmds.

(** How many processes run once the events have happened, [running] of
    them running before. *)
Fixpoint running_after (running : nat) (evs : list Event) : nat :=
  match evs with
  | [] => running
  | Spawn _ _ _ _ :: later => running_after (S running) later
  | Exit _ _ :: later => running_after (pred running) later
  end.

(** At no moment of the log do more than [limit] processes run. *)
Definition never_more_than (limit : nat) (evs : list Event) : Prop :=
  ∀ n, running_after 0 (take n evs) ≤ limit.

End Trace.

(** ** Vocabulary of the task runner *)

Module Tasks.

Import Sade.

(** The task [action] leaves behind. *)
Definition registered (cwd : string) (h : option Handler) (t : Task) : Task :=
  {| usage := usage t;
     options := options t ++ [("--cwd", "Current working directory", VStr cwd)];
     defaults := <["cwd" := VStr cwd]> (defaults t);
     handler := h |}.

(** The program [action] leaves behind. *)
Definition acted (cwd : string) (h : option Handler) (t : Task)
    (this : Program) : Program :=
  {| name := name this;
     curr := curr this;
     tree := <[curr this := registered cwd h t]> (tree this);
     commands := <[curr this := curr this]> (commands this) |}.

End Tasks.

(** ** Sample processes *)

Module Sample.

Definition printed (out : string) : ExecutionResult :=
  {| exitCode := 0; stdout := out; stderr := ""; killed := false;
     signal := None; timedOut := false |}.

Definition exit_error (code : Z) (cmd : string) : ExecutionError :=
  {| failed := {| exitCode := code; stdout := ""; stderr := "";
                  killed := false; signal := None; timedOut := false |};
     command := cmd;
     message := "Command failed: " +:+ cmd |}.

Definition text (cmd : value) : string :=
  match cmd with
  | VStr s => s
  | _ => ""
  end.

(** A small shell: [echo a] takes three ticks, [echo b] one; [sleep 2;
    exit 3] fails after five ticks and [exit 1] after one. *)
Definition sh : Runner := fun _ cmd _ =>
  if decide (text cmd = "echo a") then
    {| duration := 3; outcome := inl (printed "a") |}
  else if decide (text cmd = "echo b") then
    {| duration := 1; outcome := inl (printed "b") |}
  else if decide (text cmd = "sleep 2; exit 3") then
    {| duration := 5; outcome := inr (exit_error 3 "sleep 2; exit 3") |}
  else if decide (text cmd = "exit 1") then
    {| duration := 1; outcome := inr (exit_error 1 "exit 1") |}
  else
    {| duration := 1; outcome := inl (printed "") |}.

(** [["echo a", "", null, "echo b"]]: two commands once filtered. *)
Definition two_echoes : value :=
  VArr [VStr "echo a"; VStr ""; VNull; VStr "echo b"].

(** Two failing commands, the first of which fails last. *)
Definition two_failures : value :=
  VArr [VStr "sleep 2; exit 3"; VStr "exit 1"].


Definition at_most (n : Z) : object := {[ "concurrency" := VNum (Finite n) ]}.

(** [Error("boom")] and a task function that throws it. *)
Definition boom : ErrorObject :=
  {| error_name := "Error"; error_message := "boom"; error_props := ∅ |}.

Definition throws_boom : Sade.TaskFn := fun _ => Throws boom.

(** A parser that resolves the first word after the program to the task
    of that name and hands its handler the flags object alone. *)
Definition by_name (this : Sade.Program) (argv : list string) (opts : object)
    : option Sade.ParseResult :=
  match argv with
  | _ :: _ :: word :: _ =>
      match Sade.tree this !! word with
      | Some t =>
          Some {| Sade.r_args := Some [VObj {[ "_" := VArr [] ]}];
                  Sade.r_name := Some word;
                  Sade.r_handler := Sade.handler t |}
      | None => None
      end
  | _ => None
  end.

(** [hela().command('build')], before and after [.action(fn)] with a
    function that throws. *)
Definition build_command : Sade.Program :=
  default HelaCore.hela (Sade.command "build" HelaCore.hela).

Definition build_program (cwd : string) : Sade.Program :=
  match HelaCore.action cwd (HelaCore.Function throws_boom) build_command with
  | inr (_, this) => this
  | inl _ => build_command
  end.

(** A failing command between two that succeed. *)
Definition failure_in_the_middle : value :=
  VArr [VStr "echo a"; VStr "exit 1"; VStr "echo b"].


(** A parser that resolves every command line to the task [build] and a
    result without arguments. *)
Definition name_only (this : Sade.Program) (argv : list string) (opts : object)
    : option Sade.ParseResult :=
  Some {| Sade.r_args := None;
          Sade.r_name := Some "build";
          Sade.r_handler := Sade.tree this !! "build" ≫= Sade.handler |}.

(** A converter that renders every key of the arguments as a long flag. *)
Definition long_flags (argv opts : object) : list string :=
  (fun kv => "--" +:+ kv.1) <$> map_to_list argv.

End Sample.

(** * Properties *)

(** ** The mapper's bookkeeping *)

Section Mapper.

Import PMap Batch.

#[local] Arguments Nat.min : simpl never.
#[local] Arguments drop : simpl never.

Variable run : Runner.
Variable opts : object.
Variable items : list value.

#[local] Abbreviation mapper := (fun cmd : value => execa_command run cmd opts).
#[local] Abbreviation outcome_at := (Batch.outcome_at run opts items).
#[local] Abbreviation Inv := (Batch.Inv run opts items).
#[local] Abbreviation after := (Batch.after run opts).
#[local] Abbreviation failing_exit := (Batch.failing_exit run opts items).
#[local] Abbreviation first_failing_exit :=
  (Batch.first_failing_exit run opts items).

Lemma earliest_None fs : earliest fs = None ↔ fs = [].
Proof.
  destruct fs as [|f fs]; simpl; [done|].
  destruct (earliest fs) as [[g rest]|]; [|done].
  by destruct (_ <? _).
Qed.

Lemma earliest_perm fs g rest :
  earliest fs = Some (g, rest) → fs ≡ₚ g :: rest.
Proof.
  revert g rest. induction fs as [|f fs IH]; intros g rest; simpl; [done|].
  destruct (earliest fs) as [[g' rest']|] eqn:E.
  - specialize (IH _ _ eq_refl).
    destruct (_ <? _); intros [= <- <-]; [|done].
    rewrite IH. apply Permutation_swap.
  - apply earliest_None in E as ->. by intros [= <- <-].
Qed.

Lemma Inv_start : Inv (start items idle).
Proof.
  split; simpl; try done.
  - intros i p H. by apply elem_of_nil in H.
  - constructor.
  - intros; lia.
  - lia.
Qed.

Lemma drop_nil_ge {A} (l : list A) n : drop n l = [] → length l ≤ n.
Proof.
  intros H. pose proof (length_drop l n) as L. rewrite H in L. simpl in L. lia.
Qed.

Lemma next_Inv s : Inv s → Inv (next mapper s).
Proof.
  intros HI. unfold next.
  destruct (isRejected s) eqn:Hrej; [done|].
  destruct HI as [Hit Hsp Hfl Hnd Hdn Hct Hrt Hex Hpr].
  destruct (iterator s) as [|item rest] eqn:Eit.
  - (* the input is exhausted *)
    symmetry in Hit. pose proof (drop_nil_ge _ _ Hit) as Hlen.
    assert (Inv {| iterator := []; currentIndex := S (currentIndex s);
                   ret := ret s; isRejected := isRejected s;
                   isIterableDone := true;
                   resolvingCount := resolvingCount s;
                   inflight := inflight s; promise := promise s;
                   world := world s |}) as HI.
    { split; simpl; try done.
      - symmetry. apply drop_ge. lia.
      - lia.
      - intros i p H. destruct (Hfl i p H) as (? & ? & ?). split; [lia|done].
      - intros i _ Hi. apply Hdn; lia. }
    rewrite Hrej in HI. simpl. destruct (resolvingCount s =? 0) eqn:E0; [|done].
    apply Nat.eqb_eq in E0.
    destruct HI as [Hit' Hsp' Hfl' Hnd' Hdn' Hct' Hrt' Hex' Hpr'].
    split; simpl in *; try done.
    destruct (promise s); try done.
    split; [done|]. split; [done|]. split; [|done].
    specialize (Hct Hrej). rewrite E0 in Hct.
    by destruct (inflight s).
  - (* one more command is started *)
    unfold execa_command. simpl.
    assert (currentIndex s < length items) as Hlt.
    { destruct (decide (currentIndex s < length items)); [done|].
      rewrite drop_ge in Hit by lia. done. }
    assert (items !! currentIndex s = Some item) as Hitem.
    { rewrite <- (Nat.add_0_r (currentIndex s)), <- lookup_drop, <- Hit. done. }
    assert (spawned (world s) = currentIndex s) as Hsp0 by lia.
    split; simpl.
    + rewrite (drop_S _ _ _ Hitem) in Hit. congruence.
    + lia.
    + intros i p H. apply elem_of_app in H as [H|H].
      * destruct (Hfl i p H) as (? & ? & ?). split; [lia|done].
      * apply list_elem_of_singleton in H. injection H as -> ->. simpl.
        split; [lia|]. split; [done|].
        unfold outcome_at. rewrite Hitem. simpl. by rewrite Hsp0.
    + rewrite fmap_app. simpl. apply NoDup_app. split; [done|]. split.
      * intros i Hi Hi'. apply list_elem_of_singleton in Hi' as ->.
        apply list_elem_of_fmap in Hi as [[j p] [Hj Hin]]. simpl in Hj. subst j.
        destruct (Hfl _ _ Hin). lia.
      * apply NoDup_singleton.
    + intros i Hi Hn. rewrite fmap_app. simpl.
      destruct (decide (i = currentIndex s)) as [->|Hne].
      * left. apply elem_of_app. right. by apply list_elem_of_singleton.
      * destruct (Hdn i) as [H|[H|H]]; [lia|done| | |].
        -- left. apply elem_of_app. by left.
        -- right. by left.
        -- right. right. destruct H as (e & ? & ?). congruence.
    + intros _. rewrite length_app. simpl. rewrite Hct by done. lia.
    + done.
    + intros _. apply Forall_app. split; [by apply Hex|].
      constructor; [|done]. simpl. tauto.
    + destruct (promise s); [done| |].
      * destruct Hpr as (? & ? & ? & ?). congruence.
      * destruct Hpr. congruence.
Qed.

Lemma array_set_lookup {A} i (x : A) arr : array_set i x arr !! i = Some (Some x).
Proof.
  unfold array_set. case_decide.
  - by apply list_lookup_insert_eq.
  - rewrite lookup_app_r by lia. rewrite lookup_app_r; rewrite length_replicate; [|lia].
    by replace (i - length arr - (i - length arr)) with 0 by lia.
Qed.

Lemma array_set_lookup_ne {A} i j (x : A) arr y :
  i ≠ j → arr !! j = Some y → array_set i x arr !! j = Some y.
Proof.
  intros Hne Hj. unfold array_set. case_decide.
  - by rewrite list_lookup_insert_ne.
  - by apply lookup_app_l_Some.
Qed.

Lemma length_array_set {A} i (x : A) arr :
  length (array_set i x arr) = length arr `max` S i.
Proof.
  unfold array_set. case_decide.
  - rewrite length_insert. lia.
  - rewrite !length_app, length_replicate. simpl. lia.
Qed.

Lemma outcome_at_lt i o : outcome_at i = Some o → i < length items.
Proof.
  unfold outcome_at. intros H. apply fmap_Some in H as (c & Hc & _).
  by apply lookup_lt_Some in Hc.
Qed.

Lemma next_Live s : Inv s → Live (next mapper s).
Proof.
  intros HI. unfold Live, next.
  destruct (isRejected s) eqn:Hrej; [intros; congruence|].
  destruct (iterator s) as [|item rest].
  - simpl. pose proof (inv_count HI Hrej) as Hct.
    destruct (resolvingCount s =? 0) eqn:E0; simpl.
    + intros _ _. pose proof (inv_promise HI) as Hpr.
      destruct (promise s); done.
    + apply Nat.eqb_neq in E0. intros _ Hnil. rewrite Hnil in Hct. done.
  - unfold execa_command. simpl. intros _ Hnil.
    by apply app_eq_nil in Hnil as [_ ?].
Qed.

Lemma completion_eq s :
  completion mapper s =
  match earliest (inflight s) with
  | None => None
  | Some ((i, p), others) =>
      match settles_with p with
      | inl v => Some (next mapper (retired i p v others s))
      | inr e => Some (failed_with p e others s)
      end
  end.
Proof. done. Qed.

Section Retire.

Variables (s : State) (i : nat) (p : Promise) (others : list (nat * Promise)).
Hypothesis HI : Inv s.
Hypothesis E : earliest (inflight s) = Some ((i, p), others).

Lemma retire_flight : (i, p) ∈ inflight s ∧ ∀ f, f ∈ others → f ∈ inflight s.
Proof.
  apply earliest_perm in E. split.
  - rewrite E. left.
  - intros f Hf. rewrite E. by right.
Qed.

Lemma retire_index :
  i < currentIndex s ∧ i < length items ∧ outcome_at i = Some (settles_with p).
Proof.
  destruct (inv_flight HI i p (proj1 retire_flight)) as (? & ? & Hout).
  pose proof (outcome_at_lt _ _ Hout). done.
Qed.

Lemma retire_others :
  NoDup others.*1 ∧ length (inflight s) = S (length others)
  ∧ ∀ j, j ≠ i → j ∈ (inflight s).*1 → j ∈ others.*1.
Proof.
  apply earliest_perm in E.
  assert (NoDup (i :: others.*1)) as Hnd.
  { change (NoDup (((i, p) :: others).*1)). rewrite <- E. apply HI. }
  apply NoDup_cons in Hnd as [_ Hnd]. split; [done|]. split.
  - by rewrite E.
  - intros j Hne Hj. rewrite E in Hj. simpl in Hj.
    apply elem_of_cons in Hj as [?|?]; done.
Qed.

Lemma retired_Inv v : settles_with p = inl v → Inv (retired i p v others s).
Proof.
  intros Ep. destruct retire_flight as [Hin Hsub].
  destruct retire_index as (Hi & Hn & Hout).
  destruct retire_others as (Hnd & Hlen & Hrest).
  destruct (inv_flight HI i p Hin) as (_ & Hpid & _).
  destruct HI as [Hit Hsp Hfl _ Hdn Hct Hrt Hex Hpr].
  rewrite Ep in Hout.
  split; simpl; try done.
  - intros j q Hj. by apply Hfl, Hsub.
  - intros j Hj Hjn. destruct (decide (j = i)) as [->|Hji].
    + right. left. exists v. split; [done|]. apply array_set_lookup.
    + destruct (Hdn j Hj Hjn) as [H|[(r & Hr & Hret)|H]].
      * left. by apply Hrest.
      * right. left. exists r. split; [done|]. by apply array_set_lookup_ne.
      * by right; right.
  - intros Hrej. rewrite Hct by done. lia.
  - rewrite length_array_set. lia.
  - intros Hrej. apply Forall_app. split; [by apply Hex|].
    constructor; [|done]. simpl. rewrite Hpid. intros [e He]. congruence.
  - destruct (promise s) as [|?|f]; [done| |].
    + destruct Hpr as (_ & _ & H0 & _). rewrite H0 in Hlen. done.
    + destruct Hpr as (Hrej & j & e & He & Hf & before & later & t & Hlog & Hb).
      split; [done|]. exists j, e. split; [done|]. split; [done|].
      exists before, (later ++ [Exit (pid p) (settles_at p)]), t.
      split; [|done]. rewrite Hlog. by rewrite <- app_assoc.
Qed.

Lemma failed_Inv e : settles_with p = inr e → Inv (failed_with p e others s).
Proof.
  intros Ep. destruct retire_flight as [Hin Hsub].
  destruct retire_index as (Hi & Hn & Hout).
  destruct retire_others as (Hnd & Hlen & Hrest).
  destruct (inv_flight HI i p Hin) as (_ & Hpid & _).
  destruct HI as [Hit Hsp Hfl _ Hdn Hct Hrt Hex Hpr].
  rewrite Ep in Hout.
  split; simpl; try done.
  - intros j q Hj. by apply Hfl, Hsub.
  - intros j Hj Hjn. destruct (decide (j = i)) as [->|Hji].
    + right. right. by exists e.
    + destruct (Hdn j Hj Hjn) as [H|[H|(e' & He' & _)]].
      * left. by apply Hrest.
      * by right; left.
      * right. right. by exists e'.
  - destruct (promise s) as [|?|f].
    + split; [done|]. exists i, e. split; [done|]. split; [done|].
      exists (log (world s)), [], (settles_at p). rewrite Hpid.
      split; [done|]. by apply Hex.
    + destruct Hpr as (_ & _ & H0 & _). rewrite H0 in Hlen. done.
    + destruct Hpr as (Hrej & j & e' & He' & Hf & before & later & t & Hlog & Hb).
      split; [done|]. exists j, e'. split; [done|]. split; [done|].
      exists before, (later ++ [Exit (pid p) (settles_at p)]), t.
      split; [|done]. rewrite Hlog. by rewrite <- app_assoc.
Qed.

End Retire.

Lemma completion_Inv s s' :
  Inv s → completion mapper s = Some s' → Inv s' ∧ Live s'.
Proof.
  intros HI. rewrite completion_eq.
  destruct (earliest (inflight s)) as [[[i p] others]|] eqn:E; [|done].
  destruct (settles_with p) as [v|e] eqn:Ep; intros [= <-].
  - pose proof (retired_Inv _ _ _ _ HI E v Ep) as HR.
    split; [by apply next_Inv|by apply next_Live].
  - split; [apply (failed_Inv _ _ _ _ HI E e Ep)|].
    unfold Live, failed_with, settle. simpl. done.
Qed.

Lemma launch_Inv n s : Inv s → Inv (launch mapper n s).
Proof.
  revert s. induction n as [|n IH]; intros s HI; simpl; [done|].
  pose proof (next_Inv _ HI).
  destruct (isIterableDone (next mapper s)); [done|by apply IH].
Qed.

Lemma launch_Live n s : Inv s → Live s ∨ 1 ≤ n → Live (launch mapper n s).
Proof.
  revert s. induction n as [|n IH]; intros s HI Hn; simpl.
  - destruct Hn; [done|lia].
  - pose proof (next_Inv _ HI). pose proof (next_Live _ HI).
    destruct (isIterableDone (next mapper s)); [done|]. apply IH; auto.
Qed.

Lemma next_backlog s : backlog (next mapper s) ≤ backlog s.
Proof.
  unfold next, backlog. destruct (isRejected s); [done|].
  destruct (iterator s) as [|item rest]; simpl.
  - destruct (resolvingCount s =? 0); simpl; lia.
  - rewrite length_app. simpl. lia.
Qed.

Lemma launch_backlog n s : backlog (launch mapper n s) ≤ backlog s.
Proof.
  revert s. induction n as [|n IH]; intros s; simpl; [done|].
  pose proof (next_backlog s).
  destruct (isIterableDone (next mapper s)); [done|].
  specialize (IH (next mapper s)). lia.
Qed.

Lemma completion_backlog s s' :
  completion mapper s = Some s' → backlog s' < backlog s.
Proof.
  rewrite completion_eq.
  destruct (earliest (inflight s)) as [[[i p] others]|] eqn:E; [|done].
  apply earliest_perm in E.
  assert (length (inflight s) = S (length others)) as Hlen by (by rewrite E).
  destruct (settles_with p) as [v|e]; intros [= <-].
  - pose proof (next_backlog (retired i p v others s)) as H.
    unfold backlog in *. simpl in H. lia.
  - unfold backlog, failed_with, settle. simpl. lia.
Qed.

Lemma drain_Inv fuel s :
  Inv s → Live s → Inv (drain mapper fuel s) ∧ Live (drain mapper fuel s).
Proof.
  revert s. induction fuel as [|fuel IH]; intros s HI HL; simpl; [done|].
  destruct (completion mapper s) as [s'|] eqn:E; [|done].
  destruct (completion_Inv _ _ HI E). by apply IH.
Qed.

Lemma drain_empty fuel s :
  backlog s ≤ fuel → inflight (drain mapper fuel s) = [].
Proof.
  revert s. induction fuel as [|fuel IH]; intros s Hb; simpl.
  - unfold backlog in Hb. destruct (inflight s); [done|simpl in Hb; lia].
  - destruct (completion mapper s) as [s'|] eqn:E.
    + apply IH. apply completion_backlog in E. lia.
    + rewrite completion_eq in E.
      destruct (earliest (inflight s)) as [[[i p] others]|] eqn:E'.
      * by destruct (settles_with p).
      * by apply earliest_None.
Qed.

(** The mapper, run to the end under a limit of at least one. *)
Lemma run_settled limit :
  1 ≤ rounds limit items →
  let s := PMap.run items mapper limit idle in
  Inv s ∧ Live s ∧ inflight s = [].
Proof.
  intros Hr s. unfold s, PMap.run.
  pose proof Inv_start as H0.
  pose proof (launch_Inv (rounds limit items) _ H0) as H1.
  pose proof (launch_Live (rounds limit items) _ H0 (or_intror Hr)) as H2.
  destruct (drain_Inv (length items) _ H1 H2) as [H3 H4].
  split; [done|]. split; [done|].
  apply drain_empty. etrans; [apply launch_backlog|].
  unfold backlog. simpl. lia.
Qed.

Lemma limit_of_rounds concurrency limit :
  limit_of concurrency = Some limit → 1 ≤ rounds limit items.
Proof.
  unfold limit_of. destruct concurrency as [| | |[z| | |]| | |]; try done.
  - destruct (1 <=? z)%Z eqn:E; [|done]. intros [= <-]. simpl.
    apply Z.leb_le in E. lia.
  - intros [= <-]. simpl. lia.
Qed.


(** When some command fails the promise rejects, with the error of a
    command that failed. *)
Lemma run_rejects limit :
  1 ≤ rounds limit items →
  (∃ i e, outcome_at i = Some (inr e)) →
  ∃ j e', outcome_at j = Some (inr e')
    ∧ promise (PMap.run items mapper limit idle) = Rejected (CommandFailed e')
    ∧ first_failing_exit (log (world (PMap.run items mapper limit idle))) j.
Proof.
  intros Hr (i & e & He). destruct (run_settled limit Hr) as (HI & HL & Hnil).
  set (s := PMap.run items mapper limit idle) in *.
  destruct HI as [Hit Hsp Hfl Hnd Hdn Hct Hrt Hex Hpr].
  destruct (promise s) as [|v|f] eqn:Ep.
  - by specialize (HL Hpr Hnil).
  - destruct Hpr as (Hrej & _ & _ & Hnone).
    rewrite Hnone in Hit. symmetry in Hit. apply drop_nil_ge in Hit.
    pose proof (outcome_at_lt _ _ He) as Hi.
    destruct (Hdn i) as [H|[(r & Hr' & Hret)|(e' & He' & Hrj)]]; [lia|done| | |].
    + rewrite Hnil in H. by apply elem_of_nil in H.
    + congruence.
    + congruence.
  - destruct Hpr as (_ & j & e' & He' & -> & Hfirst). by exists j, e'.
Qed.

(** *** The options every spawned process receives *)

Lemma execa_command_carries cmd w :
  Forall (carries opts) (log w) →
  Forall (carries opts) (log (execa_command run cmd opts w).2).
Proof. intros H. simpl. apply Forall_app. split; [done|]. by repeat constructor. Qed.

Lemma exited_carries p w :
  Forall (carries opts) (log w) → Forall (carries opts) (log (exited p w)).
Proof. intros H. simpl. apply Forall_app. split; [done|]. by repeat constructor. Qed.

Lemma next_carries s :
  Forall (carries opts) (log (world s)) →
  Forall (carries opts) (log (world (next mapper s))).
Proof.
  intros H. unfold next. destruct (isRejected s); [done|].
  destruct (iterator s) as [|item rest]; simpl.
  - by destruct (resolvingCount s =? 0).
  - by apply (execa_command_carries item).
Qed.

Lemma launch_carries n s :
  Forall (carries opts) (log (world s)) →
  Forall (carries opts) (log (world (launch mapper n s))).
Proof.
  revert s. induction n as [|n IH]; intros s H; simpl; [done|].
  apply next_carries in H.
  destruct (isIterableDone (next mapper s)); [done|by apply IH].
Qed.

Lemma drain_carries fuel s :
  Forall (carries opts) (log (world s)) →
  Forall (carries opts) (log (world (drain mapper fuel s))).
Proof.
  revert s. induction fuel as [|fuel IH]; intros s H; simpl; [done|].
  rewrite completion_eq.
  destruct (earliest (inflight s)) as [[[i p] others]|]; [|done].
  destruct (settles_with p) as [v|e]; apply IH.
  - apply next_carries. simpl. by apply exited_carries.
  - simpl. by apply exited_carries.
Qed.

Lemma run_carries limit :
  Forall (carries opts) (log (world (PMap.run items mapper limit idle))).
Proof. apply drain_carries, launch_carries. simpl. constructor. Qed.

Lemma series_carries cmds w :
  Forall (carries opts) (log w) →
  Forall (carries opts) (log (HelaCore.series run opts cmds w).2).
Proof.
  revert w. induction cmds as [|c cmds IH]; intros w H; simpl; [done|].
  destruct (outcome (run (spawned w) c opts)); simpl.
  - apply IH. simpl. rewrite <- app_assoc. apply Forall_app. split; [done|].
    by repeat constructor.
  - rewrite <- app_assoc. apply Forall_app. split; [done|]. by repeat constructor.
Qed.

(** *** Without a limit every command is started at once *)

Lemma next_log s : ∃ evs, log (world (next mapper s)) = log (world s) ++ evs.
Proof.
  unfold next. destruct (isRejected s); [exists []; by rewrite app_nil_r|].
  destruct (iterator s) as [|item rest]; simpl.
  - exists []. rewrite app_nil_r. by destruct (resolvingCount s =? 0).
  - by eexists.
Qed.

Lemma drain_log fuel s :
  ∃ evs, log (world (drain mapper fuel s)) = log (world s) ++ evs.
Proof.
  revert s. induction fuel as [|fuel IH]; intros s; simpl.
  - exists []. by rewrite app_nil_r.
  - rewrite completion_eq.
    destruct (earliest (inflight s)) as [[[i p] others]|];
      [|exists []; by rewrite app_nil_r].
    destruct (settles_with p) as [v|e].
    + destruct (IH (next mapper (retired i p v others s))) as [evs ->].
      destruct (next_log (retired i p v others s)) as [evs' ->]. simpl.
      eexists. by rewrite <- !app_assoc.
    + destruct (IH (failed_with p e others s)) as [evs ->]. simpl.
      eexists. by rewrite <- !app_assoc.
Qed.

Lemma launch_all n s :
  isRejected s = false → isIterableDone s = false →
  length (iterator s) < n →
  log (world (launch mapper n s)) =
  log (world s)
  ++ imap (fun k cmd => Spawn (spawned (world s) + k) cmd opts (clock (world s)))
          (iterator s).
Proof.
  remember (iterator s) as it eqn:Eit. revert s n Eit.
  induction it as [|item rest IH]; intros s n Eit Hrej Hdone Hn;
    (destruct n as [|n]; [simpl in Hn; lia|]); simpl launch.
  - unfold next. rewrite Hrej, <- Eit. simpl.
    destruct (resolvingCount s =? 0); simpl; by rewrite app_nil_r.
  - unfold next. rewrite Hrej, <- Eit. unfold execa_command. simpl.
    rewrite Hdone.
    erewrite IH; [|done..|simpl in Hn; lia]. simpl.
    rewrite <- app_assoc. simpl. rewrite Nat.add_0_r. do 2 f_equal.
    apply imap_ext. intros k c _. simpl. f_equal. lia.
Qed.

(** *** A limit of one runs the commands like the loop with [await] *)

Lemma drain_idle fuel s : inflight s = [] → drain mapper fuel s = s.
Proof.
  intros H. destruct fuel; simpl; [done|]. rewrite completion_eq, H. done.
Qed.

Lemma drain_one rest i p arr w fuel :
  length rest < fuel →
  let s' :=
    drain mapper fuel
      {| iterator := rest; currentIndex := S i; ret := arr;
         isRejected := false; isIterableDone := false; resolvingCount := 1;
         inflight := [(i, p)]; promise := Pending; world := w |} in
  world s' = (after p rest w).2
  ∧ ∀ f, (after p rest w).1 = Rejected f → promise s' = Rejected f.
Proof.
  revert i p arr w fuel. induction rest as [|c rest IH];
    intros i p arr w fuel Hf; (destruct fuel as [|fuel]; [simpl in Hf; lia|]);
    simpl; rewrite completion_eq; simpl; unfold after;
    destruct (settles_with p) as [v|e] eqn:Ep.
  - unfold next. simpl. rewrite drain_idle by done. simpl. done.
  - rewrite drain_idle by done. simpl. split; [done|]. by intros f [= <-].
  - unfold next. simpl.
    specialize (IH (S i)
      {| pid := spawned w;
         settles_at := settles_at p + duration (run (spawned w) c opts);
         settles_with := outcome (run (spawned w) c opts) |}
      (array_set i v arr)
      {| clock := settles_at p;
         spawned := S (spawned w);
         log := (log w ++ [Exit (pid p) (settles_at p)])
                ++ [Spawn (spawned w) c opts (settles_at p)] |}
      fuel).
    simpl in IH. apply IH. simpl in Hf. lia.
  - rewrite drain_idle by done. simpl. split; [done|]. by intros f [= <-].
Qed.

Lemma run_one :
  let s := PMap.run items mapper (AtMost 1) idle in
  world s = (HelaCore.series run opts items idle).2
  ∧ ∀ f, (HelaCore.series run opts items idle).1 = Rejected f →
         promise s = Rejected f.
Proof.
  unfold PMap.run. simpl. unfold next. simpl.
  destruct items as [|c rest]; simpl.
  - done.
  - pose proof (drain_one rest 0
      {| pid := 0; settles_at := duration (run 0 c opts);
         settles_with := outcome (run 0 c opts) |} [] 
      {| clock := 0; spawned := 1; log := [Spawn 0 c opts 0] |}
      (S (length rest))) as H.
    simpl in H. apply H. lia.
Qed.

End Mapper.

(** ** One command at a time *)

Section Series.

Import Batch.

Variable run : Runner.
Variable opts : object.

Lemma series_log (cmds : list value) w :
  ∃ evs,
    log (HelaCore.series run opts cmds w).2 = log w ++ evs
    ∧ in_series (spawned w) (clock w) cmds evs
    ∧ ((∀ i c, cmds !! i = Some c →
          ∃ r, outcome (run (spawned w + i) c opts) = inl r) →
       length evs = 2 * length cmds).
Proof.
  revert w. induction cmds as [|c cmds IH]; intros w; simpl.
  - exists []. by rewrite app_nil_r.
  - destruct (outcome (run (spawned w) c opts)) as [r|e] eqn:Eo.
    + destruct (IH (exited
        {| pid := spawned w;
           settles_at := clock w + duration (run (spawned w) c opts);
           settles_with := outcome (run (spawned w) c opts) |}
        {| clock := clock w; spawned := S (spawned w);
           log := log w ++ [Spawn (spawned w) c opts (clock w)] |}))
        as (evs & Hlog & Hser & Hlen).
      unfold exited in *. simpl in *.
      exists (Spawn (spawned w) c opts (clock w)
              :: Exit (spawned w) (clock w + duration (run (spawned w) c opts))
              :: evs).
      split; [by rewrite Hlog, <- !app_assoc|]. split.
      * simpl. repeat split; try done; lia.
      * intros Hall. simpl. rewrite Hlen; [lia|].
        intros i c' Hi. destruct (Hall (S i) c' Hi) as [r' Hr'].
        exists r'. by rewrite <- Hr', Nat.add_succ_r.
    + simpl.
      exists [Spawn (spawned w) c opts (clock w);
              Exit (spawned w) (clock w + duration (run (spawned w) c opts))].
      split; [by rewrite <- !app_assoc|]. split.
      * simpl. repeat split; try done; lia.
      * intros Hall. destruct (Hall 0 c eq_refl) as [r Hr].
        rewrite Nat.add_0_r in Hr. congruence.
Qed.


Lemma series_rejects (cmds : list value) w i c e :
  cmds !! i = Some c →
  outcome (run (spawned w + i) c opts) = inr e →
  (∀ j c', j < i → cmds !! j = Some c' →
     ∃ r, outcome (run (spawned w + j) c' opts) = inl r) →
  (HelaCore.series run opts cmds w).1 = Rejected (CommandFailed e).
Proof.
  revert w i. induction cmds as [|c0 cmds IH]; intros w i Hi He Hbefore;
    [done|]; simpl.
  destruct i as [|i].
  - injection Hi as ->. rewrite Nat.add_0_r in He. by rewrite He.
  - destruct (Hbefore 0 c0) as [r Hr]; [lia|done|].
    rewrite Nat.add_0_r in Hr. rewrite Hr.
    apply (IH _ i); simpl.
    + done.
    + by rewrite <- He, Nat.add_succ_r.
    + intros j c' Hj Hc'. destruct (Hbefore (S j) c') as [r' Hr']; [lia|done|].
      exists r'. by rewrite <- Hr', Nat.add_succ_r.
Qed.

(** Among the commands that fail there is a first one in input order. *)
Lemma first_failure (cmds : list value) n :
  (∀ j c, j < n → cmds !! j = Some c →
     ∃ r, outcome (run j c opts) = inl r)
  ∨ (∃ i c e, i < n ∧ cmds !! i = Some c ∧ outcome (run i c opts) = inr e
       ∧ ∀ j c', j < i → cmds !! j = Some c' →
           ∃ r, outcome (run j c' opts) = inl r).
Proof.
  induction n as [|n [IH|IH]].
  - left. intros; lia.
  - destruct (cmds !! n) as [c|] eqn:Ec.
    + destruct (outcome (run n c opts)) as [r|e] eqn:Eo.
      * left. intros j c' Hj Hc'. destruct (decide (j = n)) as [->|].
        -- exists r. congruence.
        -- apply IH; [lia|done].
      * right. exists n, c, e. split; [lia|]. split; [done|]. split; [done|].
        intros j c' Hj. by apply IH.
    + left. intros j c' Hj Hc'. destruct (decide (j = n)) as [->|].
      * congruence.
      * apply IH; [lia|done].
  - right. destruct IH as (i & c & e & Hi & ?). exists i, c, e.
    split; [lia|done].
Qed.

End Series.

(** ** Options *)

Section Options.

Import Batch.

(** A single command is treated as a list of one command. *)
Lemma commands_of_single cmd :
  (∀ l, cmd ≠ VArr l) → ToBoolean cmd = true → commands_of cmd = [cmd].
Proof.
  intros Hcmd Ht. unfold commands_of.
  assert (concat_empty cmd = [cmd]) as ->.
  { destruct cmd; try done. by destruct (Hcmd l). }
  simpl. by rewrite Ht.
Qed.

(** The falsy entries of a list are discarded, the others kept in order. *)
Lemma commands_of_list l : commands_of (VArr l) = List.filter ToBoolean l.
Proof. done. Qed.

Lemma commands_of_truthy cmds cmd :
  cmd ∈ commands_of cmds → ToBoolean cmd = true.
Proof.
  unfold commands_of. rewrite list_elem_of_In, filter_In. by intros [_ ?].
Qed.

(** No command at all: every entry is falsy. *)
Lemma commands_of_nil cmds :
  commands_of cmds = [] ↔ Forall (fun v => ToBoolean v = false) (concat_empty cmds).
Proof.
  unfold commands_of. induction (concat_empty cmds) as [|v l IH]; simpl.
  - split; [constructor|done].
  - destruct (ToBoolean v) eqn:E.
    + split; [done|]. intros H. apply Forall_cons in H as [? _]. congruence.
    + rewrite IH. split; [by constructor|]. by intros [_ ?]%Forall_cons.
Qed.

(** What each process is handed: the merged options but [concurrency]. *)
Lemma execa_effective_lookup options key :
  Execa.effective_options options !! key
  = if decide (key = "concurrency") then None
    else Execa.merged_options options !! key.
Proof.
  unfold Execa.effective_options. case_decide as Hk.
  - subst. apply lookup_delete_eq.
  - by apply lookup_delete_ne.
Qed.

Lemma assign_empty options : assign ∅ options = default ∅ options.
Proof. destruct options as [o|]; simpl; [|done]. apply (right_id_L ∅ (∪)). Qed.

(** [Object.assign({}, options, { shell: true })]. *)
Lemma shell_options options :
  assign (assign ∅ options) (Some {[ "shell" := VBool true ]})
  = <["shell" := VBool true]> (default ∅ options).
Proof. rewrite assign_empty. simpl. by rewrite insert_union_singleton_l. Qed.

Lemma concurrency_of_given (options : object) v :
  options !! "concurrency" = Some v →
  Execa.concurrency_of (Execa.merged_options (Some options))
  = Execa.concurrency_of options.
Proof.
  intros H. unfold Execa.concurrency_of, Execa.merged_options. simpl.
  by rewrite (lookup_union_Some_l _ _ _ _ H), H.
Qed.

Lemma concurrency_of_omitted options :
  default ∅ options !! "concurrency" = None →
  Execa.concurrency_of (Execa.merged_options options) = VNum PosInf.
Proof.
  intros H. unfold Execa.concurrency_of, Execa.merged_options.
  destruct options as [o|]; simpl in *; [|done].
  rewrite lookup_union_r by done. done.
Qed.


Lemma execa_shell_option options :
  Execa.effective_options (Some (<["shell" := VBool true]> (default ∅ options)))
    !! "shell" = Some (VBool true).
Proof.
  unfold Execa.effective_options, Execa.merged_options. simpl.
  rewrite lookup_delete_ne by done.
  apply lookup_union_Some_l, lookup_insert_eq.
Qed.

Lemma hela_shell_option env options :
  HelaCore.effective_options env
    (Some (<["shell" := VBool true]> (default ∅ options)))
    !! "shell" = Some (VBool true).
Proof.
  unfold HelaCore.effective_options. simpl.
  apply lookup_union_Some_l, lookup_insert_eq.
Qed.

End Options.

(** ** Batches of commands *)

Section Batches.

Import Batch.

Variable env : object.
Variable run : Runner.

Lemma usable_rounds options (items : list value) limit :
  PMap.limit_of (Execa.concurrency_of (Execa.merged_options options))
    = Some limit →
  1 ≤ PMap.rounds limit items.
Proof. apply limit_of_rounds. Qed.

Lemma all_succeed_outcome opts (cmds : list value) :
  all_succeed run opts cmds →
  ∀ i, i < length cmds → ∃ r, outcome_at run opts cmds i = Some (inl r).
Proof.
  intros Hall i Hi. destruct (lookup_lt_is_Some_2 _ _ Hi) as [c Hc].
  destruct (Hall i c Hc) as [r Hr]. exists r.
  unfold outcome_at. rewrite Hc. simpl. by rewrite Hr.
Qed.

Lemma all_succeed_offset opts (cmds : list value) :
  all_succeed run opts cmds →
  ∀ i c, cmds !! i = Some c →
    ∃ r, outcome (run (spawned idle + i) c opts) = inl r.
Proof. intros Hall i c Hc. by apply Hall. Qed.

(** The loop of hela-core rejects with the first command to fail. *)
Lemma hela_exec_first_failure cmds options i e :
  first_to_fail run (HelaCore.effective_options env options)
    (commands_of cmds) i e →
  (HelaCore.exec env run cmds options).1 = Rejected (CommandFailed e).
Proof.
  intros [(c & Hc & He) Hbefore]. unfold HelaCore.exec.
  apply (series_rejects _ _ _ _ i c); simpl; done.
Qed.

(** With a limit of one, so does the mapper. *)
Lemma execa_exec_first_failure cmds options i e :
  Execa.concurrency_of (Execa.merged_options options) = VNum (Finite 1) →
  first_to_fail run (Execa.effective_options options) (commands_of cmds) i e →
  (Execa.exec run cmds options).1 = Rejected (CommandFailed e).
Proof.
  intros Hc [(c & Hi & He) Hbefore]. unfold Execa.exec, PMap.pMap.
  rewrite Hc. simpl.
  apply (run_one run (Execa.effective_options options) (commands_of cmds)).
  apply (series_rejects _ _ _ _ i c); simpl; done.
Qed.

Lemma some_failure_first opts (cmds : list value) i cmd e :
  cmds !! i = Some cmd → outcome (run i cmd opts) = inr e →
  ∃ j e', first_to_fail run opts cmds j e'.
Proof.
  intros Hi He.
  destruct (first_failure run opts cmds (S i)) as [Hok|(j & c & e' & _ & Hj & He' & Hb)].
  - destruct (Hok i cmd) as [r Hr]; [lia|done|congruence].
  - exists j, e'. split; [by exists c|done].
Qed.

Lemma execa_exec_carries cmds options :
  Forall (carries (Execa.effective_options options))
    (log (Execa.exec run cmds options).2).
Proof.
  unfold Execa.exec, PMap.pMap.
  destruct (PMap.limit_of _) as [limit|]; simpl.
  - apply run_carries.
  - constructor.
Qed.

Lemma hela_exec_carries cmds options :
  Forall (carries (HelaCore.effective_options env options))
    (log (HelaCore.exec env run cmds options).2).
Proof. unfold HelaCore.exec. apply series_carries. constructor. Qed.

Lemma carries_shell opts evs :
  opts !! "shell" = Some (VBool true) →
  Forall (carries opts) evs → Forall in_shell_mode evs.
Proof.
  intros Hs H. eapply Forall_impl; [done|].
  intros [k c o t|k t]; simpl; [|done]. by intros ->.
Qed.

Lemma hela_exec_in_series cmds options :
  in_series 0 0 (commands_of cmds) (log (HelaCore.exec env run cmds options).2)
  ∧ (all_succeed run (HelaCore.effective_options env options) (commands_of cmds) →
     length (log (HelaCore.exec env run cmds options).2)
     = 2 * length (commands_of cmds)).
Proof.
  unfold HelaCore.exec.
  destruct (series_log run (HelaCore.effective_options env options)
              (commands_of cmds) idle) as (evs & Hlog & Hser & Hlen).
  change (List.filter ToBoolean (concat_empty cmds)) with (commands_of cmds).
  rewrite Hlog. simpl. split; [done|].
  intros Hall. rewrite Hlen; [lia|done].
Qed.

Lemma execa_exec_in_series cmds options :
  Execa.concurrency_of (Execa.merged_options options) = VNum (Finite 1) →
  in_series 0 0 (commands_of cmds) (log (Execa.exec run cmds options).2)
  ∧ (all_succeed run (Execa.effective_options options) (commands_of cmds) →
     length (log (Execa.exec run cmds options).2)
     = 2 * length (commands_of cmds)).
Proof.
  intros Hc. unfold Execa.exec, PMap.pMap. rewrite Hc. simpl.
  destruct (run_one run (Execa.effective_options options) (commands_of cmds))
    as [Hw _].
  change (Z.to_nat 1) with 1.
  change (List.filter ToBoolean (concat_empty cmds)) with (commands_of cmds).
  rewrite Hw.
  destruct (series_log run (Execa.effective_options options)
              (commands_of cmds) idle) as (evs & Hlog & Hser & Hlen).
  rewrite Hlog. simpl. split; [done|].
  intros Hall. rewrite Hlen; [lia|done].
Qed.

Lemma execa_exec_all_at_once cmds options :
  Execa.concurrency_of (Execa.merged_options options) = VNum PosInf →
  all_at_once (Execa.effective_options options) (commands_of cmds)
    (log (Execa.exec run cmds options).2).
Proof.
  intros Hc. unfold Execa.exec, PMap.pMap. rewrite Hc. simpl.
  change (List.filter ToBoolean (concat_empty cmds)) with (commands_of cmds).
  unfold PMap.run, all_at_once.
  destruct (drain_log run (Execa.effective_options options)
              (length (commands_of cmds))
              (PMap.launch
                 (fun cmd => execa_command run cmd (Execa.effective_options options))
                 (PMap.rounds PMap.Unbounded (commands_of cmds))
                 (PMap.start (commands_of cmds) idle)))
    as [evs ->].
  rewrite launch_all; simpl; [|done|done|lia].
  rewrite take_app_length'; [done|]. by rewrite length_imap.
Qed.


Lemma execa_effective_defaults options :
  default ∅ options !! "preferLocal" = None →
  default ∅ options !! "concurrency" = None →
  Execa.effective_options options
  = <["preferLocal" := VBool true]> (default ∅ options).
Proof.
  intros Hp Hc. unfold Execa.effective_options, Execa.merged_options.
  rewrite delete_id.
  - destruct options as [o|]; simpl in *.
    + rewrite insert_union_singleton_l. apply map_union_comm.
      by apply map_disjoint_singleton_r.
    + by rewrite insert_empty.
  - destruct options as [o|]; simpl in *; [|done].
    by rewrite lookup_union_r.
Qed.

End Batches.

(** ** The claims about [exec] and [shell] *)

Section Claims.

Import Batch.


(** C2 (as amended). When the filtered list contains a failing command,
    the [exec] of [@tunnckocore/execa] (with a concurrency the mapper
    accepts) rejects with the error of a failing command: the first one to
    exit, which is the first failing command in input order when the
    concurrency is 1. The [exec] of hela-core rejects with the error of
    the first failing command in input order. *)
Theorem exec_rejects_with_failing_command env run cmds options :
  usable_concurrency options →
  ((∃ i cmd e, commands_of cmds !! i = Some cmd
       ∧ outcome (run i cmd (Execa.effective_options options)) = inr e) →
   ∃ j e',
     (∃ cmd, commands_of cmds !! j = Some cmd
        ∧ outcome (run j cmd (Execa.effective_options options)) = inr e')
     ∧ (Execa.exec run cmds options).1 = Rejected (CommandFailed e')
     ∧ first_failing_exit run (Execa.effective_options options)
         (commands_of cmds) (log (Execa.exec run cmds options).2) j
     ∧ (Execa.concurrency_of (Execa.merged_options options) = VNum (Finite 1) →
        ∃ j0, first_to_fail run (Execa.effective_options options)
                (commands_of cmds) j0 e'))
  ∧ ((∃ i cmd e, commands_of cmds !! i = Some cmd
        ∧ outcome (run i cmd (HelaCore.effective_options env options)) = inr e) →
     ∃ j e',
       first_to_fail run (HelaCore.effective_options env options)
         (commands_of cmds) j e'
       ∧ (HelaCore.exec env run cmds options).1 = Rejected (CommandFailed e')).
Proof.
  intros [limit Hl]. split.
  - intros (i & cmd & e & Hi & He).
    destruct (run_rejects run (Execa.effective_options options)
                (commands_of cmds) limit (limit_of_rounds _ _ _ Hl))
      as (k & e' & Hk & Hp & Hexit).
    { exists i, e. unfold outcome_at. rewrite Hi. simpl. by rewrite He. }
    assert ((Execa.exec run cmds options).1 = Rejected (CommandFailed e')
            ∧ log (Execa.exec run cmds options).2
              = log (PMap.world
                       (PMap.run (commands_of cmds)
                          (fun c => execa_command run c
                                      (Execa.effective_options options))
                          limit idle))) as [Hrej Hlog].
    { unfold Execa.exec, PMap.pMap. by rewrite Hl. }
    exists k, e'. split.
    { unfold outcome_at in Hk. apply fmap_Some in Hk as (c & Hc & Ho).
      exists c. split; [done|]. by symmetry. }
    split; [done|]. split; [by rewrite Hlog|].
    intros Hone.
    destruct (some_failure_first run _ _ _ _ _ Hi He) as (j0 & e0 & Hfirst).
    exists j0.
    pose proof (execa_exec_first_failure run cmds options j0 e0 Hone Hfirst)
      as Hrej0.
    rewrite Hrej in Hrej0. by injection Hrej0 as ->.
  - intros (i & cmd & e & Hi & He).
    destruct (some_failure_first run _ _ _ _ _ Hi He) as (j & e' & Hfirst).
    exists j, e'. split; [done|].
    by apply (hela_exec_first_failure env run cmds options j e').
Qed.

(** C3. With [concurrency] set to 1 the commands of the filtered list are
    started strictly in input order and each has exited before the next
    one starts, in the [exec] of [@tunnckocore/execa] and in the loop of
    hela-core's [exec]; when none fails, every command is run. *)
Theorem exec_concurrency_one_in_series env run cmds (options : object) :
  options !! "concurrency" = Some (VNum (Finite 1)) →
  (in_series 0 0 (commands_of cmds) (log (Execa.exec run cmds (Some options)).2)
   ∧ (all_succeed run (Execa.effective_options (Some options)) (commands_of cmds) →
      length (log (Execa.exec run cmds (Some options)).2)
      = 2 * length (commands_of cmds)))
  ∧ (in_series 0 0 (commands_of cmds)
       (log (HelaCore.exec env run cmds (Some options)).2)
     ∧ (all_succeed run (HelaCore.effective_options env (Some options))
          (commands_of cmds) →
        length (log (HelaCore.exec env run cmds (Some options)).2)
        = 2 * length (commands_of cmds))).
Proof.
  intros Hc. split.
  - apply execa_exec_in_series.
    by rewrite (concurrency_of_given _ _ Hc); unfold Execa.concurrency_of; rewrite Hc.
  - apply hela_exec_in_series.
Qed.

(** C4. [shell(cmds, options)] is [exec(cmds, options')], where [options']
    is [options] with [shell] set to [true], also when the caller had set
    it to [false], and nothing else changed; every process it spawns is
    given [shell: true]. This holds of both packages. *)
Theorem shell_is_exec_with_shell_true env run cmds options :
  let options' := <["shell" := VBool true]> (default ∅ options) in
  options' !! "shell" = Some (VBool true)
  ∧ (∀ key, key ≠ "shell" → options' !! key = default ∅ options !! key)
  ∧ Execa.shell run cmds options = Execa.exec run cmds (Some options')
  ∧ HelaCore.shell env run cmds options = HelaCore.exec env run cmds (Some options')
  ∧ Forall in_shell_mode (log (Execa.shell run cmds options).2)
  ∧ Forall in_shell_mode (log (HelaCore.shell env run cmds options).2).
Proof.
  intros options'. split; [apply lookup_insert_eq|].
  split; [intros key Hk; by apply lookup_insert_ne|].
  assert (Execa.shell run cmds options = Execa.exec run cmds (Some options'))
    as He by (unfold Execa.shell; by rewrite shell_options).
  assert (HelaCore.shell env run cmds options
          = HelaCore.exec env run cmds (Some options'))
    as Hh by (unfold HelaCore.shell; by rewrite shell_options).
  split; [done|]. split; [done|]. split.
  - rewrite He. eapply carries_shell; [|apply execa_exec_carries].
    apply execa_shell_option.
  - rewrite Hh. eapply carries_shell; [|apply hela_exec_carries].
    apply hela_shell_option.
Qed.

(** C5 (as amended). When the caller's options omit [preferLocal] and
    [concurrency], the [exec] of [@tunnckocore/execa] hands every process
    the caller's options with [preferLocal: true] added and nothing else
    changed, and starts every command at once, before any of them has
    exited. The [exec] of hela-core hands every process the caller's
    options over [{ stdio: 'inherit', env: process.env }] and runs the
    commands one at a time. *)
Theorem exec_default_options env run cmds options :
  default ∅ options !! "preferLocal" = None →
  default ∅ options !! "concurrency" = None →
  (Execa.effective_options options
     = <["preferLocal" := VBool true]> (default ∅ options)
   ∧ Forall (carries (Execa.effective_options options))
       (log (Execa.exec run cmds options).2)
   ∧ all_at_once (Execa.effective_options options) (commands_of cmds)
       (log (Execa.exec run cmds options).2))
  ∧ (HelaCore.effective_options env options
       = default ∅ options ∪ HelaCore.defaultOptions env
     ∧ Forall (carries (HelaCore.effective_options env options))
         (log (HelaCore.exec env run cmds options).2)
     ∧ in_series 0 0 (commands_of cmds)
         (log (HelaCore.exec env run cmds options).2)).
Proof.
  intros Hp Hc. split; split.
  - by apply execa_effective_defaults.
  - split; [apply execa_exec_carries|].
    apply execa_exec_all_at_once. by apply concurrency_of_omitted.
  - unfold HelaCore.effective_options. rewrite assign_empty. simpl.
    destruct options as [o|]; simpl; [done|].
    by rewrite (left_id_L ∅ (∪)).
  - split; [apply hela_exec_carries|apply hela_exec_in_series].
Qed.


End Claims.

(** ** The claims at concrete batches *)

Section Instances.

Import Batch Sample.

Lemma sample_succeeds opts : all_succeed sh opts (commands_of two_echoes).
Proof.
  intros i cmd H.
  destruct i as [|[|i]]; vm_compute in H; [| |discriminate];
    injection H as <-; eexists; reflexivity.
Qed.

Lemma sample_fails opts :
  ∃ i cmd e, commands_of two_failures !! i = Some cmd
    ∧ outcome (sh i cmd opts) = inr e.
Proof. exists 1, (VStr "exit 1"), (exit_error 1 "exit 1"). by split. Qed.



Lemma exec_rejects_with_failing_command_witness :
  usable_concurrency (Some (at_most 1))
  ∧ (∃ j e',
       first_to_fail sh (Execa.effective_options (Some (at_most 1)))
         (commands_of two_failures) j e'
       ∧ (Execa.exec sh two_failures (Some (at_most 1))).1
         = Rejected (CommandFailed e'))
  ∧ (∃ j e',
       first_to_fail sh (HelaCore.effective_options ∅ (Some (at_most 1)))
         (commands_of two_failures) j e'
       ∧ (HelaCore.exec ∅ sh two_failures (Some (at_most 1))).1
         = Rejected (CommandFailed e')).
Proof.
  assert (usable_concurrency (Some (at_most 1))) as Hu
    by (vm_compute; by eexists).
  destruct (exec_rejects_with_failing_command ∅ sh two_failures
              (Some (at_most 1)) Hu) as [He Hh].
  split; [done|]. split.
  - destruct (He (sample_fails _)) as (j & e' & _ & Hr & _ & Hf).
    destruct (Hf eq_refl) as [j0 Hj0].
    exists j0, e'. by split.
  - apply Hh, sample_fails.
Defined.

(** C2 as stated fails: without a limit both commands run at once, and
    the batch rejects with the error of the second command, which fails
    first in time, not with that of the first one in input order. *)
Lemma exec_first_failure_counterexample :
  first_to_fail sh (Execa.effective_options None) (commands_of two_failures)
    0 (exit_error 3 "sleep 2; exit 3")
  ∧ (Execa.exec sh two_failures None).1
    = Rejected (CommandFailed (exit_error 1 "exit 1"))
  ∧ exit_error 1 "exit 1" ≠ exit_error 3 "sleep 2; exit 3".
Proof.
  split; [|split].
  - split.
    + exists (VStr "sleep 2; exit 3"). by split.
    + intros j cmd Hj. lia.
  - vm_compute. reflexivity.
  - discriminate.
Qed.

Lemma exec_concurrency_one_in_series_witness :
  at_most 1 !! "concurrency" = Some (VNum (Finite 1))
  ∧ in_series 0 0 (commands_of two_echoes)
      (log (Execa.exec sh two_echoes (Some (at_most 1))).2)
  ∧ length (log (Execa.exec sh two_echoes (Some (at_most 1))).2) = 4
  ∧ in_series 0 0 (commands_of two_echoes)
      (log (HelaCore.exec ∅ sh two_echoes (Some (at_most 1))).2).
Proof.
  assert (at_most 1 !! "concurrency" = Some (VNum (Finite 1))) as Hc
    by reflexivity.
  destruct (exec_concurrency_one_in_series ∅ sh two_echoes (at_most 1) Hc)
    as [[He Hlen] [Hh _]].
  split; [done|]. split; [done|]. split; [|done].
  rewrite Hlen; [reflexivity|apply sample_succeeds].
Defined.

Lemma exec_default_options_witness :
  Execa.effective_options (Some {[ "stdio" := VStr "inherit" ]})
    !! "preferLocal" = Some (VBool true)
  ∧ all_at_once (Execa.effective_options (Some {[ "stdio" := VStr "inherit" ]}))
      (commands_of two_echoes)
      (log (Execa.exec sh two_echoes (Some {[ "stdio" := VStr "inherit" ]})).2).
Proof.
  assert (default ∅ (Some ({[ "stdio" := VStr "inherit" ]} : object))
            !! "preferLocal" = None) as Hp by (vm_compute; reflexivity).
  assert (default ∅ (Some ({[ "stdio" := VStr "inherit" ]} : object))
            !! "concurrency" = None) as Hc by (vm_compute; reflexivity).
  destruct (exec_default_options ∅ sh two_echoes
              (Some {[ "stdio" := VStr "inherit" ]}) Hp Hc)
    as [(Ho & _ & Hall) _].
  split; [|done]. rewrite Ho. reflexivity.
Defined.

(** C5 as stated fails for hela-core's [exec]: the options each process
    receives have no [preferLocal], and the second command starts only
    when the first has exited. *)
Lemma hela_exec_defaults_counterexample :
  HelaCore.effective_options ∅ None !! "preferLocal" = None
  ∧ log (HelaCore.exec ∅ sh two_echoes None).2
    = [ Spawn 0 (VStr "echo a") (HelaCore.effective_options ∅ None) 0;
        Exit 0 3;
        Spawn 1 (VStr "echo b") (HelaCore.effective_options ∅ None) 3;
        Exit 1 4 ]
  ∧ ¬ all_at_once (HelaCore.effective_options ∅ None) (commands_of two_echoes)
        (log (HelaCore.exec ∅ sh two_echoes None).2).
Proof.
  split; [reflexivity|]. split; [vm_compute; reflexivity|].
  intros H. vm_compute in H. discriminate.
Qed.


End Instances.

(** ** The task runner *)

Section TaskRunner.

Import Sade HelaCore.

Variable env : object.
Variable cwd : string.
Variable parse : Program → list string → object → option ParseResult.
Variable argv : list string.

(** C6. When the handler of the task that [listen()] dispatches, with the
    argument list the parser produced, throws (or rejects), [listen()]
    throws that same error with three properties attached: [commandArgv],
    the last element of the parsed arguments (the flags object of the
    invocation); [commandArgs], the arguments before it; [commandName],
    the resolved task name, so ["build"] for the task named [build]. *)
Theorem listen_enriches_error options this result args h err :
  parse this argv (hela_options env options) = Some result →
  r_args result = Some args →
  r_handler result = Some h →
  (call this h args).2 = Throws err →
  ∃ err',
    (listen env parse argv options this).2 = Throws err'
    ∧ error_name err' = error_name err
    ∧ error_message err' = error_message err
    ∧ error_props err' !! "commandArgv" = Some (List.last args VUndef)
    ∧ error_props err' !! "commandArgs" = Some (VArr (removelast args))
    ∧ error_props err' !! "commandName"
      = Some (from_option VStr VUndef (r_name result))
    ∧ (∀ key, key ≠ "commandArgv" → key ≠ "commandArgs" →
         key ≠ "commandName" →
         error_props err' !! key = error_props err !! key)
    ∧ (r_name result = Some "build" →
       error_props err' !! "commandName" = Some (VStr "build")).
Proof.
  intros Hparse Hargs Hh Hthrow.
  exists (enrich err args (r_name result)).
  assert ((listen env parse argv options this).2
          = Throws (enrich err args (r_name result))) as Hl.
  { unfold listen. rewrite Hparse, Hargs, Hh. simpl.
    destruct (call this h args) as [calls how]. simpl in Hthrow.
    by rewrite Hthrow. }
  split; [done|]. split; [done|]. split; [done|]. unfold enrich. simpl.
  split; [do 2 (rewrite lookup_insert_ne by done); by rewrite lookup_insert_eq|].
  split; [rewrite lookup_insert_ne by done; by rewrite lookup_insert_eq|].
  split; [by rewrite lookup_insert_eq|]. split.
  - intros key H1 H2 H3. by do 3 (rewrite lookup_insert_ne by done).
  - intros ->. by rewrite lookup_insert_eq.
Qed.

(** C7. When parsing resolves nothing (no result at all, or a result with
    no task name and no arguments), [listen()] returns without calling a
    handler and without throwing. *)
Theorem listen_without_match options this :
  parse this argv (hela_options env options) = None
  ∨ (∃ result,
       parse this argv (hela_options env options) = Some result
       ∧ r_args result = None
       ∧ (r_name result = None ∨ r_name result = Some "")) →
  listen env parse argv options this = ([], Returns VUndef).
Proof.
  intros [Hnone|(result & Hsome & Hargs & Hname)]; unfold listen.
  - by rewrite Hnone.
  - rewrite Hsome, Hargs. by destruct Hname as [-> | ->].
Qed.


End TaskRunner.

(** ** The build configuration *)

Section BuildConfig.

Import HelaDev.

Variable babelConfig : object.


End BuildConfig.

(** ** The task runner and the build configuration at concrete inputs *)

Section MoreInstances.

Import Sade HelaCore HelaDev Sample.

Lemma listen_enriches_error_witness :
  ∃ err',
    (listen ∅ by_name ["node"; "hela"; "build"] None (build_program "/repo")).2
      = Throws err'
    ∧ error_message err' = "boom"
    ∧ error_props err' !! "commandName" = Some (VStr "build")
    ∧ error_props err' !! "commandArgs" = Some (VArr []).
Proof.
  destruct (listen_enriches_error ∅ by_name ["node"; "hela"; "build"] None
              (build_program "/repo")
              {| r_args := Some [VObj {[ "_" := VArr [] ]}];
                 r_name := Some "build";
                 r_handler := Some (Wrapped "build" throws_boom) |}
              [VObj {[ "_" := VArr [] ]}]
              (Wrapped "build" throws_boom)
              boom)
    as (err' & Hl & _ & Hm & _ & Hargs & _ & _ & Hb);
    [vm_compute; reflexivity|reflexivity|reflexivity|reflexivity|].
  exists err'. split; [done|]. split; [done|]. split; [by apply Hb|done].
Defined.

Lemma listen_without_match_witness :
  by_name (build_program "/repo") ["node"; "hela"] (hela_options ∅ None) = None
  ∧ listen ∅ by_name ["node"; "hela"] None (build_program "/repo")
    = ([], Returns VUndef).
Proof.
  split; [reflexivity|].
  apply (listen_without_match ∅ by_name ["node"; "hela"] None
           (build_program "/repo")).
  left. reflexivity.
Defined.



End MoreInstances.

(** * Further properties *)

(** ** The options of [@tunnckocore/execa] *)

Section ExecaOptions.

Import Batch.

Variable run : Runner.

Lemma merged_lookup options key :
  Execa.merged_options options !! key
  = match default ∅ options !! key with
    | Some v => Some v
    | None => if decide (key = "preferLocal") then Some (VBool true) else None
    end.
Proof.
  unfold Execa.merged_options. destruct options as [o|]; simpl.
  - rewrite lookup_union. destruct (o !! key) as [v|] eqn:E; simpl.
    + by destruct ({[ "preferLocal" := VBool true ]} !! key).
    + case_decide as Hk.
      * subst. by rewrite lookup_singleton_eq.
      * by rewrite lookup_singleton_ne.
  - rewrite lookup_empty. case_decide as Hk.
    + subst. by rewrite lookup_singleton_eq.
    + by rewrite lookup_singleton_ne.
Qed.

(** X1. Whatever the caller's options, [exec] never hands [concurrency] to
    the process runner; a [preferLocal] the caller gives, whatever its
    value, replaces the default [true]; every other option reaches every
    process as the caller gave it. *)
Theorem exec_forwards_options cmds options :
  let opts := Execa.effective_options options in
  Forall (carries opts) (log (Execa.exec run cmds options).2)
  ∧ opts !! "concurrency" = None
  ∧ opts !! "preferLocal"
    = Some (default (VBool true) (default ∅ options !! "preferLocal"))
  ∧ ∀ key, key ≠ "concurrency" → key ≠ "preferLocal" →
      opts !! key = default ∅ options !! key.
Proof.
  intros opts. split; [apply execa_exec_carries|]. unfold opts.
  split; [by rewrite execa_effective_lookup|]. split.
  - rewrite execa_effective_lookup, merged_lookup. simpl.
    by destruct (default ∅ options !! "preferLocal").
  - intros key Hc Hp. rewrite execa_effective_lookup, merged_lookup.
    rewrite !decide_False by done.
    by destruct (default ∅ options !! key).
Qed.

(** X2. A [concurrency] given as [undefined] is a [concurrency] left out:
    the two calls of [exec] are the same computation. *)
Theorem exec_undefined_concurrency cmds (options : object) :
  Execa.exec run cmds (Some (<["concurrency" := VUndef]> options))
  = Execa.exec run cmds (Some (delete "concurrency" options)).
Proof.
  unfold Execa.exec.
  assert (Execa.concurrency_of
            (Execa.merged_options (Some (<["concurrency" := VUndef]> options)))
          = Execa.concurrency_of
              (Execa.merged_options (Some (delete "concurrency" options))))
    as ->.
  { unfold Execa.concurrency_of. rewrite !merged_lookup. simpl.
    by rewrite lookup_insert_eq, lookup_delete_eq. }
  assert (Execa.effective_options (Some (<["concurrency" := VUndef]> options))
          = Execa.effective_options (Some (delete "concurrency" options)))
    as ->; [|done].
  apply map_eq. intros key. rewrite !execa_effective_lookup.
  case_decide as Hk; [done|]. rewrite !merged_lookup. simpl.
  by rewrite lookup_insert_ne, lookup_delete_ne.
Qed.

End ExecaOptions.

(** ** The order of the starts *)

Section Starts.

Import PMap Batch Trace.

#[local] Arguments Nat.min : simpl never.
#[local] Arguments drop : simpl never.

Variable run : Runner.
Variable opts : object.
Variable items : list value.

#[local] Abbreviation mapper := (fun cmd : value => execa_command run cmd opts).
#[local] Abbreviation Inv := (Batch.Inv run opts items).
#[local] Abbreviation Started :=
  (fun s : State =>
     started (log (world s)) = numbered (take (spawned (world s)) items)).

Lemma started_snoc_exit evs k t : started (evs ++ [Exit k t]) = started evs.
Proof. unfold started. rewrite omap_app. simpl. by rewrite app_nil_r. Qed.

Lemma started_snoc_spawn evs k cmd o t :
  started (evs ++ [Spawn k cmd o t]) = started evs ++ [(k, cmd)].
Proof. unfold started. by rewrite omap_app. Qed.

Lemma numbered_snoc (l : list value) x :
  numbered (l ++ [x]) = numbered l ++ [(length l, x)].
Proof. unfold numbered. rewrite imap_app. simpl. by rewrite Nat.add_0_r. Qed.

Lemma next_started s : Inv s → Started s → Started (next mapper s).
Proof.
  intros HI HS. unfold next. destruct (isRejected s); [done|].
  destruct (iterator s) as [|item rest] eqn:Eit.
  - simpl. by destruct (resolvingCount s =? 0).
  - simpl.
    pose proof (inv_iter HI) as Hit. pose proof (inv_spawned HI) as Hsp.
    rewrite Eit in Hit.
    assert (currentIndex s < length items) as Hlt.
    { destruct (decide (currentIndex s < length items)); [done|].
      rewrite drop_ge in Hit by lia. done. }
    assert (items !! spawned (world s) = Some item) as Hitem.
    { replace (spawned (world s)) with (currentIndex s) by lia.
      rewrite <- (Nat.add_0_r (currentIndex s)), <- lookup_drop, <- Hit. done. }
    rewrite started_snoc_spawn, HS.
    rewrite (take_S_r _ _ _ Hitem), numbered_snoc.
    rewrite length_take, Nat.min_l by lia. done.
Qed.

Lemma launch_started n s : Inv s → Started s → Started (launch mapper n s).
Proof.
  revert s. induction n as [|n IH]; intros s HI HS; simpl launch; [done|].
  pose proof (next_Inv run opts items _ HI) as HI'.
  pose proof (next_started _ HI HS) as HS'.
  destruct (isIterableDone (next mapper s)); [done|by apply IH].
Qed.

Lemma drain_started fuel s :
  Inv s → Started s → Started (drain mapper fuel s).
Proof.
  revert s. induction fuel as [|fuel IH]; intros s HI HS; simpl drain; [done|].
  destruct (completion mapper s) as [s'|] eqn:Ec; [|done].
  destruct (completion_Inv run opts items _ _ HI Ec) as [HI' _].
  apply IH; [done|]. rewrite completion_eq in Ec.
  destruct (earliest (inflight s)) as [[[i p] others]|] eqn:E; [|done].
  destruct (settles_with p) as [v|e] eqn:Ep; injection Ec as <-.
  - apply next_started.
    + by apply (retired_Inv run opts items s i p others HI E v).
    + simpl. by rewrite started_snoc_exit.
  - simpl. by rewrite started_snoc_exit.
Qed.

Lemma run_started limit :
  Started (PMap.run items mapper limit idle).
Proof.
  unfold PMap.run. apply drain_started.
  - apply launch_Inv, Inv_start.
  - apply launch_started; [apply Inv_start|done].
Qed.

Lemma run_spawned limit :
  1 ≤ rounds limit items →
  spawned (world (PMap.run items mapper limit idle)) ≤ length items
  ∧ ((∀ i, i < length items → ∃ r, outcome_at run opts items i = Some (inl r)) →
     spawned (world (PMap.run items mapper limit idle)) = length items).
Proof.
  intros Hr. destruct (run_settled run opts items limit Hr) as (HI & HL & Hnil).
  set (s := PMap.run items mapper limit idle) in *.
  pose proof (inv_spawned HI) as Hsp. split; [lia|]. intros Hall.
  pose proof (inv_promise HI) as Hpr. pose proof (inv_iter HI) as Hit.
  assert (isRejected s = false) as Hrej.
  { destruct (promise s); try tauto.
    destruct Hpr as (_ & i & e & He & _).
    destruct (Hall i (outcome_at_lt _ _ _ _ _ He)) as [r0 Hr']. congruence. }
  specialize (HL Hrej Hnil).
  destruct (promise s) as [|v|f]; [done| |by destruct Hpr; congruence].
  destruct Hpr as (_ & _ & _ & Hnone).
  rewrite Hnone in Hit. symmetry in Hit. apply drop_nil_ge in Hit. lia.
Qed.

(** The loop with [await] starts the commands up to the first one that
    fails, and no other. *)
Lemma series_started (cmds : list value) w j cmd e :
  cmds !! j = Some cmd →
  outcome (run (spawned w + j) cmd opts) = inr e →
  (∀ i c, i < j → cmds !! i = Some c →
     ∃ r, outcome (run (spawned w + i) c opts) = inl r) →
  started (log (HelaCore.series run opts cmds w).2)
  = started (log w)
    ++ imap (fun i c => (spawned w + i, c)) (take (S j) cmds).
Proof.
  revert w j. induction cmds as [|c0 cmds IH]; intros w j Hj He Hbefore;
    [done|]; simpl.
  destruct j as [|j].
  - injection Hj as ->. rewrite Nat.add_0_r in He. rewrite He. simpl.
    rewrite started_snoc_exit, started_snoc_spawn.
    by rewrite Nat.add_0_r.
  - destruct (Hbefore 0 c0) as [r Hr]; [lia|done|].
    rewrite Nat.add_0_r in Hr. rewrite Hr.
    rewrite (IH _ j); simpl.
    + rewrite started_snoc_exit, started_snoc_spawn, <- app_assoc. simpl.
      rewrite Nat.add_0_r. do 2 f_equal.
      apply imap_ext. intros i c _. simpl. f_equal. lia.
    + done.
    + by rewrite <- He, Nat.add_succ_r.
    + intros i c Hi Hc. destruct (Hbefore (S i) c) as [r' Hr']; [lia|done|].
      exists r'. by rewrite <- Hr', Nat.add_succ_r.
Qed.

End Starts.

(** ** The number of processes in flight *)

Section InFlight.

Import PMap Batch Trace.

Variable run : Runner.
Variable opts : object.
Variable limit : nat.

#[local] Abbreviation mapper := (fun cmd : value => execa_command run cmd opts).
#[local] Abbreviation Counted :=
  (fun s : State =>
     running_after 0 (log (world s)) = length (inflight s)
     ∧ never_more_than limit (log (world s))).

Lemma running_after_app running evs later :
  running_after running (evs ++ later)
  = running_after (running_after running evs) later.
Proof.
  revert running. induction evs as [|[k c o t|k t] evs IH]; intros running;
    simpl; [done|apply IH..].
Qed.

Lemma never_more_than_snoc evs ev :
  never_more_than limit evs →
  running_after 0 (evs ++ [ev]) ≤ limit →
  never_more_than limit (evs ++ [ev]).
Proof.
  intros Hevs Hev n. destruct (decide (n ≤ length evs)) as [Hn|Hn].
  - rewrite take_app_le by done. apply Hevs.
  - rewrite take_ge; [done|]. rewrite length_app. simpl. lia.
Qed.

Lemma next_counted s :
  Counted s → length (inflight s) < limit →
  Counted (next mapper s) ∧ length (inflight (next mapper s)) ≤ limit.
Proof.
  intros [Hrun Hmax] Hlt. unfold next. destruct (isRejected s).
  { split; [done|lia]. }
  destruct (iterator s) as [|item rest]; simpl.
  - destruct (resolvingCount s =? 0); simpl; (split; [done|lia]).
  - assert (running_after 0 (log (world s)
                             ++ [Spawn (spawned (world s)) item opts
                                   (clock (world s))])
            = S (length (inflight s))) as Hsnoc.
    { rewrite running_after_app. simpl. by rewrite Hrun. }
    rewrite length_app. simpl. split; [|lia]. split.
    + rewrite Hsnoc. lia.
    + apply never_more_than_snoc; [done|]. rewrite Hsnoc. lia.
Qed.

Lemma launch_counted n s :
  Counted s → length (inflight s) + n ≤ limit →
  Counted (launch mapper n s)
  ∧ length (inflight (launch mapper n s)) ≤ limit.
Proof.
  revert s. induction n as [|n IH]; intros s HC Hn; simpl launch.
  - split; [done|lia].
  - destruct (next_counted s HC) as [HC' Hlen]; [lia|].
    destruct (isIterableDone (next mapper s)); [done|].
    apply IH; [done|].
    assert (length (inflight (next mapper s)) ≤ S (length (inflight s)));
      [|lia].
    unfold next. destruct (isRejected s); [lia|].
    destruct (iterator s); simpl.
    + destruct (resolvingCount s =? 0); simpl; lia.
    + rewrite length_app. simpl. lia.
Qed.

Lemma completion_counted s s' :
  Counted s → length (inflight s) ≤ limit →
  completion mapper s = Some s' →
  Counted s' ∧ length (inflight s') ≤ limit.
Proof.
  intros [Hrun Hmax] Hlen. rewrite completion_eq.
  destruct (earliest (inflight s)) as [[[i p] others]|] eqn:E; [|done].
  apply earliest_perm in E.
  assert (length (inflight s) = S (length others)) as Hothers by (by rewrite E).
  assert (running_after 0 (log (world s) ++ [Exit (pid p) (settles_at p)])
          = length others) as Hsnoc.
  { rewrite running_after_app. simpl. rewrite Hrun. lia. }
  assert (never_more_than limit
            (log (world s) ++ [Exit (pid p) (settles_at p)])) as Hmax'.
  { apply never_more_than_snoc; [done|]. rewrite Hsnoc. lia. }
  destruct (settles_with p) as [v|e]; intros [= <-].
  - apply next_counted; simpl; [done|lia].
  - simpl. split; [done|lia].
Qed.

Lemma drain_counted fuel s :
  Counted s → length (inflight s) ≤ limit →
  Counted (drain mapper fuel s).
Proof.
  revert s. induction fuel as [|fuel IH]; intros s HC Hlen; simpl drain; [done|].
  destruct (completion mapper s) as [s'|] eqn:Ec; [|done].
  destruct (completion_counted s s' HC Hlen Ec). by apply IH.
Qed.

Lemma run_counted items :
  never_more_than limit
    (log (world (PMap.run items mapper (AtMost limit) idle))).
Proof.
  unfold PMap.run. simpl rounds.
  assert (Counted (start items idle)) as H0.
  { split; [done|]. intros n. simpl. rewrite take_nil. simpl. lia. }
  destruct (launch_counted limit _ H0) as [H1 Hlen]; [simpl; lia|].
  by apply drain_counted.
Qed.

End InFlight.

(** ** Which commands are started, and how many at once *)

Section Schedule.

Import Batch Trace Sample.

(** X3. Whatever the concurrency, [exec] starts the commands of the
    filtered list in input order, each at most once: the commands started
    are the first [k] of the list, and all of them when none fails. (The
    mapper is the one modelled in [PMap].) *)
Theorem exec_starts_in_input_order run cmds options :
  usable_concurrency options →
  ∃ k,
    k ≤ length (commands_of cmds)
    ∧ started (log (Execa.exec run cmds options).2)
      = numbered (take k (commands_of cmds))
    ∧ (all_succeed run (Execa.effective_options options) (commands_of cmds) →
       k = length (commands_of cmds)).
Proof.
  intros [limit Hl]. unfold Execa.exec, PMap.pMap. rewrite Hl. simpl.
  change (List.filter ToBoolean (concat_empty cmds)) with (commands_of cmds).
  pose proof (limit_of_rounds (commands_of cmds) _ _ Hl) as Hr.
  destruct (run_spawned run (Execa.effective_options options)
              (commands_of cmds) limit Hr) as [Hle Hall].
  eexists. split; [exact Hle|]. split.
  - apply run_started.
  - intros Hs. apply Hall. by apply all_succeed_outcome.
Qed.

Lemma exec_starts_in_input_order_witness :
  ∃ k,
    started (log (Execa.exec sh two_echoes (Some (at_most 2))).2)
      = numbered (take k (commands_of two_echoes))
    ∧ k = 2.
Proof.
  assert (usable_concurrency (Some (at_most 2))) as Hu
    by (vm_compute; by eexists).
  destruct (exec_starts_in_input_order sh two_echoes (Some (at_most 2)) Hu)
    as (k & _ & Hk & Hall).
  exists k. split; [done|]. rewrite Hall; [reflexivity|apply sample_succeeds].
Defined.

(** X4. The [exec] of hela-core starts no command after the first one
    that fails: the commands started are those up to it, in input
    order. *)
Theorem hela_exec_stops_at_first_failure env run cmds options j e :
  first_to_fail run (HelaCore.effective_options env options)
    (commands_of cmds) j e →
  started (log (HelaCore.exec env run cmds options).2)
  = numbered (take (S j) (commands_of cmds)).
Proof.
  intros [(cmd & Hj & He) Hbefore]. unfold HelaCore.exec.
  change (List.filter ToBoolean (concat_empty cmds)) with (commands_of cmds).
  by rewrite (series_started run _ _ idle j cmd e).
Qed.

Lemma sample_middle_fails opts :
  first_to_fail sh opts (commands_of failure_in_the_middle) 1
    (exit_error 1 "exit 1").
Proof.
  split.
  - exists (VStr "exit 1"). by split.
  - intros j cmd Hj H. destruct j as [|j]; [|lia].
    vm_compute in H. injection H as <-. eexists. reflexivity.
Qed.

Lemma hela_exec_stops_at_first_failure_witness :
  started (log (HelaCore.exec ∅ sh failure_in_the_middle None).2)
  = [(0, VStr "echo a"); (1, VStr "exit 1")].
Proof.
  rewrite (hela_exec_stops_at_first_failure ∅ sh failure_in_the_middle None
             1 (exit_error 1 "exit 1") (sample_middle_fails _)).
  reflexivity.
Defined.

(** X5. With [concurrency] set to 1 the [exec] of [@tunnckocore/execa]
    starts no command after the first one that fails either. (The mapper
    is the one modelled in [PMap].) *)
Theorem exec_in_series_stops_at_first_failure run cmds (options : object) j e :
  options !! "concurrency" = Some (VNum (Finite 1)) →
  first_to_fail run (Execa.effective_options (Some options))
    (commands_of cmds) j e →
  started (log (Execa.exec run cmds (Some options)).2)
  = numbered (take (S j) (commands_of cmds)).
Proof.
  intros Hc [(cmd & Hj & He) Hbefore]. unfold Execa.exec, PMap.pMap.
  rewrite (concurrency_of_given _ _ Hc). unfold Execa.concurrency_of.
  rewrite Hc. simpl.
  change (List.filter ToBoolean (concat_empty cmds)) with (commands_of cmds).
  change (Z.to_nat 1) with 1.
  destruct (run_one run (Execa.effective_options (Some options))
              (commands_of cmds)) as [-> _].
  by rewrite (series_started run _ _ idle j cmd e).
Qed.

Lemma exec_in_series_stops_at_first_failure_witness :
  started (log (Execa.exec sh failure_in_the_middle (Some (at_most 1))).2)
  = [(0, VStr "echo a"); (1, VStr "exit 1")].
Proof.
  rewrite (exec_in_series_stops_at_first_failure sh failure_in_the_middle
             (at_most 1) 1 (exit_error 1 "exit 1") eq_refl
             (sample_middle_fails _)).
  reflexivity.
Defined.

(** X6. With [concurrency] set to an integer [n] from 1 up, at no moment
    do more than [n] of the processes [exec] has spawned run at once.
    (The mapper is the one modelled in [PMap].) *)
Theorem exec_respects_concurrency run cmds (options : object) n :
  options !! "concurrency" = Some (VNum (Finite n)) →
  (1 ≤ n)%Z →
  never_more_than (Z.to_nat n) (log (Execa.exec run cmds (Some options)).2).
Proof.
  intros Hc Hn. unfold Execa.exec, PMap.pMap.
  rewrite (concurrency_of_given _ _ Hc). unfold Execa.concurrency_of.
  rewrite Hc. simpl. apply Z.leb_le in Hn. rewrite Hn. simpl.
  apply run_counted.
Qed.

Lemma exec_respects_concurrency_witness :
  never_more_than 2
    (log (Execa.exec sh failure_in_the_middle (Some (at_most 2))).2).
Proof.
  apply (exec_respects_concurrency sh failure_in_the_middle (at_most 2) 2);
    [reflexivity|lia].
Defined.

End Schedule.

(** ** The options and the environment of [@hela/core] *)

Section HelaOptions.

Import Batch Sample.

Lemma append_assoc (s1 s2 s3 : string) : (s1 +:+ s2) +:+ s3 = s1 +:+ s2 +:+ s3.
Proof.
  induction s1 as [|a s1 IH]; [reflexivity|].
  change (String a ((s1 +:+ s2) +:+ s3) = String a (s1 +:+ s2 +:+ s3)).
  by rewrite IH.
Qed.

(** [join] over two lists put end to end. *)
Lemma concat_app sep (l1 l2 : list string) :
  l1 ≠ [] → l2 ≠ [] →
  String.concat sep (l1 ++ l2)
  = String.concat sep l1 +:+ sep +:+ String.concat sep l2.
Proof.
  intros H1 H2. induction l1 as [|x [|y l1] IH]; [done| |].
  - destruct l2; done.
  - change (String.concat sep ((x :: y :: l1) ++ l2))
      with (x +:+ sep +:+ String.concat sep ((y :: l1) ++ l2)).
    rewrite IH by done.
    change (String.concat sep (x :: y :: l1))
      with (x +:+ sep +:+ String.concat sep (y :: l1)).
    by rewrite !append_assoc.
Qed.

(** X7. Every process the [exec] of hela-core spawns is handed the
    caller's options laid over the defaults: what the caller gives wins,
    [stdio] is ['inherit'] and [env] is [proc.env] otherwise, nothing else
    is added and nothing is taken away, [concurrency] included. *)
Theorem hela_exec_forwards_options env run cmds options :
  let opts := HelaCore.effective_options env options in
  Forall (carries opts) (log (HelaCore.exec env run cmds options).2)
  ∧ ∀ key,
      opts !! key
      = match default ∅ options !! key with
        | Some v => Some v
        | None =>
            if decide (key = "stdio") then Some (VStr "inherit")
            else if decide (key = "env") then Some (VObj env)
            else None
        end.
Proof.
  intros opts. split; [apply hela_exec_carries|]. intros key.
  unfold opts, HelaCore.effective_options. rewrite assign_empty. simpl.
  assert (HelaCore.defaultOptions env !! key
          = if decide (key = "stdio") then Some (VStr "inherit")
            else if decide (key = "env") then Some (VObj env) else None)
    as Hd.
  { unfold HelaCore.defaultOptions. repeat case_decide; subst.
    - done.
    - by rewrite lookup_insert_ne, lookup_singleton_eq.
    - by rewrite lookup_insert_ne, lookup_singleton_ne. }
  destruct options as [o|]; simpl.
  - rewrite lookup_union. rewrite Hd.
    destruct (o !! key); by repeat case_decide.
  - by rewrite lookup_empty.
Qed.

(** X8. Once the module is loaded, every process the [exec] of hela-core
    spawns for a caller who gives no [env] runs with the environment of
    the program in which [PATH] is the directories of local binaries,
    joined by [:], then [:], then the [PATH] there was (the text
    [undefined] when there was none); no other variable is changed. *)
Theorem hela_exec_environment binaries environment run cmds options :
  default ∅ options !! "env" = None →
  let env := HelaCore.proc_env binaries environment in
  ∃ opts,
    Forall (carries opts) (log (HelaCore.exec env run cmds options).2)
    ∧ opts !! "env" = Some (VObj env)
    ∧ env !! "PATH"
      = Some (VStr (String.concat ":" binaries +:+ ":"
                    +:+ default "undefined" (environment !! "PATH")))
    ∧ ∀ key, key ≠ "PATH" → env !! key = VStr <$> environment !! key.
Proof.
  intros Hnone env. exists (HelaCore.effective_options env options).
  split; [apply hela_exec_carries|]. split.
  - unfold HelaCore.effective_options. rewrite assign_empty. simpl.
    destruct options as [o|]; simpl in *.
    + rewrite lookup_union_r by done. unfold HelaCore.defaultOptions.
      by rewrite lookup_insert_ne, lookup_singleton_eq.
    + unfold HelaCore.defaultOptions.
      by rewrite lookup_insert_ne, lookup_singleton_eq.
  - unfold env, HelaCore.proc_env, HelaCore.loaded, HelaCore.OWN_PATH. split.
    + by rewrite lookup_fmap, lookup_insert_eq.
    + intros key Hk. by rewrite lookup_fmap, lookup_insert_ne.
Qed.

Lemma hela_exec_environment_witness :
  ∃ opts env,
    Forall (carries opts) (log (HelaCore.exec env sh two_echoes None).2)
    ∧ opts !! "env" = Some (VObj env)
    ∧ env !! "PATH" = Some (VStr "/repo/node_modules/.bin:/usr/bin").
Proof.
  destruct (hela_exec_environment ["/repo/node_modules/.bin"]
              {[ "PATH" := "/usr/bin" ]} sh two_echoes None eq_refl)
    as (opts & Hc & He & Hp & _).
  exists opts, (HelaCore.proc_env ["/repo/node_modules/.bin"]
                  {[ "PATH" := "/usr/bin" ]}).
  split; [done|]. split; [done|]. rewrite Hp. reflexivity.
Defined.

(** X9. Loading the module puts the directories of local binaries in
    front of the search path: when there is at least one and [PATH] listed
    at least one directory, the new [PATH] lists the local ones, in their
    order, and then the old ones, in theirs. *)
Theorem loaded_path_order binaries environment (dirs : list string) :
  binaries ≠ [] → dirs ≠ [] →
  environment !! "PATH" = Some (String.concat ":" dirs) →
  HelaCore.loaded binaries environment !! "PATH"
  = Some (String.concat ":" (binaries ++ dirs)).
Proof.
  intros Hb Hd Hpath. unfold HelaCore.loaded, HelaCore.OWN_PATH.
  rewrite lookup_insert_eq, Hpath. simpl. by rewrite concat_app.
Qed.

Lemma loaded_path_order_witness :
  HelaCore.loaded ["/repo/node_modules/.bin"; "/node_modules/.bin"]
    {[ "PATH" := "/usr/bin:/bin"; "HOME" := "/root" ]} !! "PATH"
  = Some "/repo/node_modules/.bin:/node_modules/.bin:/usr/bin:/bin".
Proof.
  rewrite (loaded_path_order ["/repo/node_modules/.bin"; "/node_modules/.bin"]
             {[ "PATH" := "/usr/bin:/bin"; "HOME" := "/root" ]}
             ["/usr/bin"; "/bin"]); [reflexivity|done|done|reflexivity].
Defined.

(** X10. [toFlags] hands the converter the caller's options as they are,
    with [allowSingleFlags: true] added only when the caller gives no
    value for it, and returns the converter's flags joined by single
    spaces. *)
Theorem toFlags_options dargs argv options :
  ∃ opts,
    HelaCore.toFlags dargs argv options = String.concat " " (dargs argv opts)
    ∧ opts !! "allowSingleFlags"
      = Some (default (VBool true) (default ∅ options !! "allowSingleFlags"))
    ∧ ∀ key, key ≠ "allowSingleFlags" →
        opts !! key = default ∅ options !! key.
Proof.
  exists (assign {[ "allowSingleFlags" := VBool true ]} options).
  split; [done|]. destruct options as [o|]; simpl.
  - split.
    + rewrite lookup_union, lookup_singleton_eq.
      by destruct (o !! "allowSingleFlags").
    + intros key Hk. rewrite lookup_union, lookup_singleton_ne by done.
      by destruct (o !! key).
  - split; [by rewrite lookup_singleton_eq|].
    intros key Hk. by rewrite lookup_singleton_ne, lookup_empty.
Qed.

End HelaOptions.

(** ** More of the task runner *)

Section MoreTaskRunner.

Import Sade HelaCore Sample Tasks.

Lemma alter_alter_insert {A} (f g : A → A) (m : gmap string A) key x :
  m !! key = Some x →
  alter f key (alter g key m) = <[key := f (g x)]> m.
Proof.
  intros Hx. apply map_eq. intros k. destruct (decide (key = k)) as [<-|Hk].
  - by rewrite !lookup_alter_eq, Hx, lookup_insert_eq.
  - by rewrite !lookup_alter_ne, lookup_insert_ne.
Qed.


Lemma action_function cwd fn this t :
  curr this ≠ "" →
  tree this !! curr this = Some t →
  action cwd (Function fn) this
  = inr (Wrapped (curr this) fn,
         acted cwd (Some (Wrapped (curr this) fn)) t this).
Proof.
  intros Hne Ht. unfold action. rewrite decide_False by done. rewrite Ht.
  unfold set_command, option_, set_handler. simpl.
  rewrite decide_False by done.
  rewrite !lookup_alter_eq, Ht. simpl. unfold acted, registered.
  by rewrite (alter_alter_insert _ _ _ _ t).
Qed.


(** X11. [action(fn)] on the task being defined changes that task and its
    entry in [commands] and nothing else: the other tasks, the other
    entries, the program's name and the command being defined are what
    they were. *)
Theorem action_touches_one_task cwd fn this t :
  curr this ≠ "" →
  tree this !! curr this = Some t →
  ∃ this',
    action cwd (Function fn) this = inr (Wrapped (curr this) fn, this')
    ∧ name this' = name this
    ∧ curr this' = curr this
    ∧ ∀ other, other ≠ curr this →
        tree this' !! other = tree this !! other
        ∧ commands this' !! other = commands this !! other.
Proof.
  intros Hne Ht. rewrite (action_function cwd fn this t Hne Ht).
  eexists. split; [done|]. split; [done|]. split; [done|].
  intros other Ho. simpl. by rewrite !lookup_insert_ne.
Qed.

Lemma action_touches_one_task_witness :
  ∃ this',
    action "/repo" (Function throws_boom) build_command
      = inr (Wrapped "build" throws_boom, this')
    ∧ tree this' !! "__default__" = Some (fresh "<command>").
Proof.
  destruct (action_touches_one_task "/repo" throws_boom build_command
              (fresh "build")) as (this' & Ha & _ & _ & Hframe);
    [done|vm_compute; reflexivity|].
  exists this'. split; [done|].
  destruct (Hframe "__default__") as [-> _]; [done|]. reflexivity.
Defined.





Lemma listen_dispatch env parse argv options this result args h :
  parse this argv (hela_options env options) = Some result →
  r_args result = Some args →
  r_handler result = Some h →
  listen env parse argv options this
  = ((call this h args).1,
     match (call this h args).2 with
     | Returns _ => Returns VUndef
     | Throws err => Throws (enrich err args (r_name result))
     end).
Proof.
  intros Hparse Hargs Hh. unfold listen. rewrite Hparse, Hargs, Hh. simpl.
  destruct (call this h args) as [calls [v|err]]; done.
Qed.



(** X15. When the task the parser resolves has no handler (no [action]
    was given for it), [listen()] calls nothing and throws a [TypeError],
    which carries the three command properties like any error of a
    handler. *)
Theorem listen_without_handler env parse argv options this result args :
  parse this argv (hela_options env options) = Some result →
  r_args result = Some args →
  r_handler result = None →
  ∃ err,
    listen env parse argv options this = ([], Throws err)
    ∧ error_name err = "TypeError"
    ∧ error_props err !! "commandName"
      = Some (from_option VStr VUndef (r_name result))
    ∧ error_props err !! "commandArgs" = Some (VArr (removelast args))
    ∧ error_props err !! "commandArgv" = Some (List.last args VUndef).
Proof.
  intros Hparse Hargs Hh. unfold listen. rewrite Hparse, Hargs, Hh. simpl.
  eexists. split; [done|]. simpl. split; [done|].
  split; [apply lookup_insert_eq|].
  split; [rewrite lookup_insert_ne by done; apply lookup_insert_eq|].
  do 2 (rewrite lookup_insert_ne by done). apply lookup_insert_eq.
Qed.

Lemma listen_without_handler_witness :
  ∃ err,
    listen ∅ by_name ["node"; "hela"; "build"] None build_command
      = ([], Throws err)
    ∧ error_name err = "TypeError"
    ∧ error_props err !! "commandName" = Some (VStr "build").
Proof.
  destruct (listen_without_handler ∅ by_name ["node"; "hela"; "build"] None
              build_command
              {| r_args := Some [VObj {[ "_" := VArr [] ]}];
                 r_name := Some "build";
                 r_handler := None |}
              [VObj {[ "_" := VArr [] ]}])
    as (err & Hl & Hn & Hc & _); [vm_compute; reflexivity|done|done|].
  by exists err.
Defined.

(** X16. The two argument properties of the error [listen()] throws split
    the parser's argument list: [commandArgs] followed by [commandArgv] is
    that list when it is not empty; for an empty list [commandArgs] is
    empty and [commandArgv] is [undefined]. *)
Theorem listen_splits_arguments env parse argv options this result args h err :
  parse this argv (hela_options env options) = Some result →
  r_args result = Some args →
  r_handler result = Some h →
  (call this h args).2 = Throws err →
  ∃ err' rest final,
    (listen env parse argv options this).2 = Throws err'
    ∧ error_props err' !! "commandArgs" = Some (VArr rest)
    ∧ error_props err' !! "commandArgv" = Some final
    ∧ (args ≠ [] → rest ++ [final] = args)
    ∧ (args = [] → rest = [] ∧ final = VUndef).
Proof.
  intros Hparse Hargs Hh Hthrow.
  rewrite (listen_dispatch env parse argv options this result args h
             Hparse Hargs Hh). simpl. rewrite Hthrow.
  eexists _, (removelast args), (List.last args VUndef).
  split; [done|]. simpl.
  split; [rewrite lookup_insert_ne by done; apply lookup_insert_eq|].
  split; [do 2 (rewrite lookup_insert_ne by done); apply lookup_insert_eq|].
  split.
  - intros Hne. symmetry. by apply app_removelast_last.
  - by intros ->.
Qed.

Lemma listen_splits_arguments_witness :
  ∃ err' rest final,
    (listen ∅ by_name ["node"; "hela"; "build"] None (build_program "/repo")).2
      = Throws err'
    ∧ error_props err' !! "commandArgs" = Some (VArr rest)
    ∧ error_props err' !! "commandArgv" = Some final
    ∧ rest ++ [final] = [VObj {[ "_" := VArr [] ]}].
Proof.
  destruct (listen_splits_arguments ∅ by_name ["node"; "hela"; "build"] None
              (build_program "/repo")
              {| r_args := Some [VObj {[ "_" := VArr [] ]}];
                 r_name := Some "build";
                 r_handler := Some (Wrapped "build" throws_boom) |}
              [VObj {[ "_" := VArr [] ]}]
              (Wrapped "build" throws_boom) boom)
    as (err' & rest & final & Hl & Hr & Hf & Hsplit & _);
    [vm_compute; reflexivity|reflexivity|reflexivity|reflexivity|].
  exists err', rest, final. split; [done|]. split; [done|]. split; [done|].
  by apply Hsplit.
Defined.

(** X17. A result of the parser with a task name and no argument list is
    dispatched: the handler is called with no argument of the parser's.
    What it returns is dropped; when it throws, reading the missing
    argument list fails first, and what [listen()] throws is a
    [TypeError] that carries nothing of the handler's error. *)
Theorem listen_without_arguments env parse argv options this result task_name h :
  parse this argv (hela_options env options) = Some result →
  r_args result = None →
  r_name result = Some task_name →
  task_name ≠ "" →
  r_handler result = Some h →
  (listen env parse argv options this).1 = (call this h []).1
  ∧ (∀ v, (call this h []).2 = Returns v →
       (listen env parse argv options this).2 = Returns VUndef)
  ∧ (∀ err, (call this h []).2 = Throws err →
       ∃ err', (listen env parse argv options this).2 = Throws err'
         ∧ error_name err' = "TypeError" ∧ error_props err' = ∅).
Proof.
  intros Hparse Hargs Hname Hne Hh. unfold listen.
  rewrite Hparse, Hargs, Hname, Hh.
  destruct task_name as [|a rest]; [done|]. simpl.
  destruct (call this h []) as [calls [v|err]]; simpl.
  - split; [done|]. split; [done|]. by intros err [=].
  - split; [done|]. split; [by intros v [=]|]. intros err0 _. by eexists.
Qed.

Lemma listen_without_arguments_witness :
  ∃ err',
    (listen ∅ name_only [] None (build_program "/repo")).2 = Throws err'
    ∧ error_name err' = "TypeError" ∧ error_props err' = ∅.
Proof.
  destruct (listen_without_arguments ∅ name_only [] None
              (build_program "/repo")
              {| r_args := None;
                 r_name := Some "build";
                 r_handler := Some (Wrapped "build" throws_boom) |}
              "build" (Wrapped "build" throws_boom))
    as (_ & _ & Hthrow);
    [vm_compute; reflexivity|reflexivity|reflexivity|done|reflexivity|].
  apply (Hthrow boom). reflexivity.
Defined.

(** X18. The parser is always called in lazy mode: [lazy] is [true] in the
    options [listen()] hands it whatever the caller of [hela] gave for it,
    so what the caller gives for [lazy] changes nothing of what
    [listen()] does. *)
Theorem listen_always_lazy env parse argv (options : object) v this :
  (∀ given, hela_options env given !! "lazy" = Some (VBool true))
  ∧ listen env parse argv (Some (<["lazy" := v]> options)) this
    = listen env parse argv (Some options) this.
Proof.
  split.
  - intros given. unfold hela_options. simpl.
    apply lookup_union_Some_l, lookup_singleton_eq.
  - assert (hela_options env (Some (<["lazy" := v]> options))
            = hela_options env (Some options)) as Heq; [|unfold listen; by rewrite Heq].
    unfold hela_options. simpl. apply map_eq. intros key.
    rewrite !lookup_union. destruct (decide (key = "lazy")) as [->|Hk].
    + rewrite lookup_singleton_eq.
      by destruct (<["lazy":=v]> options !! "lazy" ∪ _),
                  (options !! "lazy" ∪ _).
    + by rewrite lookup_insert_ne.
Qed.

End MoreTaskRunner.

(** ** More of the build configuration *)

Section MoreBuildConfig.

Import HelaDev.

Variable babelConfig : object.

Lemma build_options_env options :
  field (build_options options) "env"
  = default (VObj {[ "NODE_ENV" := VStr "main" ]})
      (default ∅ options !! "env").
Proof.
  unfold field, build_options. destruct options as [o|]; simpl.
  - rewrite lookup_union, lookup_singleton_eq. by destruct (o !! "env").
  - by rewrite lookup_singleton_eq.
Qed.

Lemma build_options_other options key :
  key ≠ "env" →
  field (build_options options) key = field (default ∅ options) key.
Proof.
  intros Hk. unfold field, build_options. destruct options as [o|]; simpl.
  - rewrite lookup_union. rewrite lookup_singleton_ne by done.
    by destruct (o !! key).
  - rewrite lookup_singleton_ne by done. by rewrite lookup_empty.
Qed.

(** X19. [createBuildConfig] throws exactly when the caller's options
    hold an [env] that is [undefined] or [null]: the default [env] is
    replaced by it, and reading [NODE_ENV] from it fails. Options without
    [env], or none at all, never make it throw. *)
Theorem createBuildConfig_throws options :
  (createBuildConfig babelConfig options = None
   ↔ default ∅ options !! "env" = Some VUndef
     ∨ default ∅ options !! "env" = Some VNull)
  ∧ (default ∅ options !! "env" = None →
     is_Some (createBuildConfig babelConfig options)).
Proof.
  unfold createBuildConfig. rewrite build_options_env.
  destruct (default ∅ options !! "env") as [[| | | | | |]|]; simpl; split;
    try (intros _; by eexists); try done;
    (split; [intros H; try done; auto|intros [H|H]; congruence]).
Qed.

(** X20. In every configuration [createBuildConfig] returns the display
    name and the output directory go together (the module build or the
    main build, never a mix), there is exactly one test glob, and the
    test environment, the ignored paths, the runner and the file
    extensions are the same whatever the options. *)
Theorem createBuildConfig_shape options cfg :
  createBuildConfig babelConfig options = Some cfg →
  (displayName cfg = "build:esm" ∧ outDir (haste cfg) = "dist/build/module"
   ∨ displayName cfg = "build:cjs" ∧ outDir (haste cfg) = "dist/build/main")
  ∧ (testMatch cfg = ["<rootDir>/packages/*/src/**/*"]
     ∨ testMatch cfg = ["<rootDir>/src/**/*"])
  ∧ testEnvironment cfg = "node"
  ∧ testPathIgnorePatterns cfg = [".+/__tests__/.+"; ".+/dist/.+"]
  ∧ runner cfg = "@tunnckocore/jest-runner-babel"
  ∧ moduleFileExtensions cfg = ["ts"; "tsx"; "js"; "jsx"; "mjs"; "json"].
Proof.
  unfold createBuildConfig.
  destruct (get (field (build_options options) "env") "NODE_ENV")
    as [node_env|]; [|done].
  simpl. intros [= <-]. simpl.
  split; [destruct (is_string "module" node_env); auto|].
  split; [destruct (ToBoolean _); auto|]. done.
Qed.

(** X21. Of the caller's options [createBuildConfig] reads [mono], [env]
    and [cwd] and nothing else: two option records that agree on these
    three give the same outcome, whatever else they hold. *)
Theorem createBuildConfig_reads_three_options (o1 o2 : object) :
  o1 !! "mono" = o2 !! "mono" →
  o1 !! "env" = o2 !! "env" →
  o1 !! "cwd" = o2 !! "cwd" →
  createBuildConfig babelConfig (Some o1) = createBuildConfig babelConfig (Some o2).
Proof.
  intros Hm He Hc. unfold createBuildConfig.
  rewrite !build_options_env, !build_options_other by done.
  unfold field. simpl. by rewrite Hm, He, Hc.
Qed.

End MoreBuildConfig.

Section BuildConfigInstances.

Import HelaDev.

Lemma createBuildConfig_shape_witness :
  ∃ cfg,
    createBuildConfig ∅ None = Some cfg
    ∧ displayName cfg = "build:cjs"
    ∧ outDir (haste cfg) = "dist/build/main"
    ∧ runner cfg = "@tunnckocore/jest-runner-babel".
Proof.
  eexists. split; [reflexivity|].
  destruct (createBuildConfig_shape ∅ None _ eq_refl)
    as (_ & _ & _ & _ & Hr & _).
  split; [reflexivity|]. split; [reflexivity|exact Hr].
Defined.

Lemma createBuildConfig_reads_three_options_witness :
  createBuildConfig ∅
    (Some {[ "mono" := VBool true; "match" := VStr "packages/**/*" ]})
  = createBuildConfig ∅ (Some {[ "mono" := VBool true ]}).
Proof.
  apply (createBuildConfig_reads_three_options ∅
           {[ "mono" := VBool true; "match" := VStr "packages/**/*" ]}
           {[ "mono" := VBool true ]}); reflexivity.
Defined.

End BuildConfigInstances.
